(** * messaging: the PAIR demo node of AppliedGo/messaging

    A shallow embedding of [messaging.go].  The program is a glue script
    around the Mangos messaging library: what it does is the sequence of
    calls it makes on the library, on [log] and on [time], and the way it
    reacts to the answers.  The embedding therefore keeps the bodies of
    [newSocket], [send], [receive], [runNode] and [main] as programs over a
    signature of external calls, and runs them against an arbitrary
    environment that answers each call. *)

From Stdlib Require Import ZArith List String Ascii Bool Lia.
From Stdlib Require Import DecimalString.
From Stdlib Require DecimalZ.
Import ListNotations.
Local Open Scope string_scope.
Local Open Scope Z_scope.

Set Implicit Arguments.

(** ** Go values used by the program *)

(** A Go [error] value; the program only tests it against [nil] and reads
    its [Error()] text. *)
Record error : Type := mkError { Error : string }.

(** [[]byte] *)
Definition bytes : Type := list Byte.byte.

(** [[]byte(message)] and [string(bytes)] *)
Definition bytes_of_string (s : string) : bytes := list_byte_of_string s.
Definition string_of_bytes (b : bytes) : string := string_of_list_byte b.

(** [time.Duration] counts nanoseconds. *)
Definition Duration : Type := Z.
Definition time_Second : Duration := 1000000000.

(** A [mangos.Socket] is an opaque handle owned by the library. *)
Definition Socket : Type := nat.

(** The scalability protocols and the transports the library offers (the
    lists of the walkthrough text); the program picks [Pair], [Ipc], [Tcp]. *)
Inductive Protocol : Type :=
  Pair | ReqRep | PubSub | Pipeline | Survey | Bus.

Inductive Transport : Type :=
  Inproc | Ipc | Tcp | Ws.

(** The value argument of [SetOption] is an [interface{}]. *)
Inductive OptionValue : Type :=
| VDuration (d : Duration)
| VInt (n : Z)
| VBool (b : bool).

Definition mangos_OptionRecvDeadline : string := "RECV-DEADLINE".

(** ** fmt.Sprintf, for the two verbs the program uses *)

Inductive fmt_arg : Type :=
| Int (n : Z)
| Str (s : string).

Definition itoa (n : Z) : string := NilZero.string_of_int (Z.to_int n).

Definition fmt_verb (v : ascii) (a : fmt_arg) : string :=
  match a with
  | Int n => itoa n
  | Str s => s
  end.

Definition nl : string := String "010"%char EmptyString.

Fixpoint Sprintf (format : string) (args : list fmt_arg) : string :=
  match format with
  | EmptyString => EmptyString
  | String "%"%char (String v rest) =>
      match args with
      | a :: args' => fmt_verb v a ++ Sprintf rest args'
      | [] => String "%"%char (String v (Sprintf rest []))
      end
  | String c rest => String c (Sprintf rest args)
  end.

(** ** The external calls *)

(** Every call the program makes outside itself, indexed by the type of
    its answer.  An [error] result is [None] for [nil].  [log_Output] is
    the formatted line handed to the standard logger, which puts its
    timestamp in front. *)
Inductive call : Type -> Type :=
| NewSocket (p : Protocol) : call (Socket + error)
| AddTransport (s : Socket) (t : Transport) : call unit
| SetOption (s : Socket) (name : string) (v : OptionValue) : call (option error)
| Listen (s : Socket) (url : string) : call (option error)
| Dial (s : Socket) (url : string) : call (option error)
| Send (s : Socket) (b : bytes) : call (option error)
| Recv (s : Socket) : call (bytes + error)
| Close (s : Socket) : call (option error)
| log_Output (line : string) : call unit
| time_Sleep (d : Duration) : call unit.

(** A call together with the answer it got. *)
Inductive event : Type :=
| ENewSocket (p : Protocol) (r : Socket + error)
| EAddTransport (s : Socket) (t : Transport)
| ESetOption (s : Socket) (name : string) (v : OptionValue) (r : option error)
| EListen (s : Socket) (url : string) (r : option error)
| EDial (s : Socket) (url : string) (r : option error)
| ESend (s : Socket) (b : bytes) (r : option error)
| ERecv (s : Socket) (r : bytes + error)
| EClose (s : Socket) (r : option error)
| ELog (line : string)
| ESleep (d : Duration).

Definition observe {X : Type} (c : call X) : X -> event :=
  match c in call X return X -> event with
  | NewSocket p => fun r => ENewSocket p r
  | AddTransport s t => fun _ => EAddTransport s t
  | SetOption s name v => fun r => ESetOption s name v r
  | Listen s url => fun r => EListen s url r
  | Dial s url => fun r => EDial s url r
  | Send s b => fun r => ESend s b r
  | Recv s => fun r => ERecv s r
  | Close s => fun r => EClose s r
  | log_Output line => fun _ => ELog line
  | time_Sleep d => fun _ => ESleep d
  end.

(** The environment: the library, the peer process and the network.  It
    answers each call, and its answer may depend on everything that
    happened before. *)
Definition env : Type := forall X : Type, list event -> call X -> X.

(** ** Programs *)

(** The package-level variables. *)
Record Globals : Type := mkGlobals { node : string }.

(** A deferred call; its answer is dropped. *)
Inductive deferred : Type :=
| Deferred (X : Type) (c : call X).

(** A function body: external calls, reads and writes of [node], [defer],
    [os.Exit] and a run-time panic. *)
Inductive prog (A : Type) : Type :=
| Ret (a : A)
| Call (X : Type) (c : call X) (k : X -> prog A)
| GetNode (k : string -> prog A)
| SetNode (v : string) (k : prog A)
| Defer (d : deferred) (k : prog A)
| os_Exit (code : Z)
| Panic (msg : string).

Arguments Ret {A} a.
Arguments Call {A X} c k.
Arguments GetNode {A} k.
Arguments SetNode {A} v k.
Arguments Defer {A} d k.
Arguments os_Exit {A} code.
Arguments Panic {A} msg.

Fixpoint bind {A B : Type} (p : prog A) (f : A -> prog B) : prog B :=
  match p with
  | Ret a => f a
  | Call c k => Call c (fun r => bind (k r) f)
  | GetNode k => GetNode (fun v => bind (k v) f)
  | SetNode v k => SetNode v (bind k f)
  | Defer d k => Defer d (bind k f)
  | os_Exit code => os_Exit code
  | Panic msg => Panic msg
  end.

Notation "x <- p ;; q" := (bind p (fun x => q))
  (at level 61, p at next level, right associativity).
Notation "p ;; q" := (bind p (fun _ => q))
  (at level 61, right associativity).

Definition do {X : Type} (c : call X) : prog X := Call c (fun r => Ret r).

(** Deferred calls run last-in-first-out when the function returns or
    panics; [os.Exit] ends the process at once and runs none of them. *)
Fixpoint run_deferred {A : Type} (ds : list deferred) (p : prog A) : prog A :=
  match ds with
  | [] => p
  | Deferred c :: ds' => Call c (fun _ => run_deferred ds' p)
  end.

Fixpoint scope {A : Type} (ds : list deferred) (body : prog A) : prog A :=
  match body with
  | Ret a => run_deferred ds (Ret a)
  | Call c k => Call c (fun r => scope ds (k r))
  | GetNode k => GetNode (fun v => scope ds (k v))
  | SetNode v k => SetNode v (scope ds k)
  | Defer d k => scope (d :: ds) k
  | os_Exit code => os_Exit code
  | Panic msg => run_deferred ds (Panic msg)
  end.

(** A Go function: its body with its own frame of deferred calls. *)
Definition func {A : Type} (body : prog A) : prog A := scope [] body.

(** [log.Printf] writes one formatted line; [log.Fatalf] is [Printf]
    followed by [os.Exit(1)]. *)
Definition log_Printf (format : string) (args : list fmt_arg) : prog unit :=
  do (log_Output (Sprintf format args)).

Definition log_Fatalf {A : Type} (format : string) (args : list fmt_arg) : prog A :=
  do (log_Output (Sprintf format args)) ;; os_Exit 1.

(** [for i := lo; i < hi; i++ { body }] *)
Fixpoint for_count (n : nat) (i : Z) (body : Z -> prog unit) : prog unit :=
  match n with
  | O => Ret tt
  | S n' => body i ;; for_count n' (i + 1) body
  end.

Definition for_lt (lo hi : Z) (body : Z -> prog unit) : prog unit :=
  for_count (Z.to_nat (hi - lo)) lo body.

(** ** The program *)

Definition newSocket : prog Socket :=
  func (
    r <- do (NewSocket Pair) ;;
    match r with
    | inr err =>
        n <- GetNode Ret ;;
        log_Fatalf ("Node %s: Cannot create socket: %s" ++ nl) [Str n; Str (Error err)]
    | inl socket =>
        do (AddTransport socket Ipc) ;;
        do (AddTransport socket Tcp) ;;
        do (SetOption socket mangos_OptionRecvDeadline (VDuration (10 * time_Second))) ;;
        Ret socket
    end).

Definition send (socket : Socket) (message : string) : prog unit :=
  func (
    n <- GetNode Ret ;;
    log_Printf ("Node %s sends %s" ++ nl) [Str n; Str message] ;;
    err <- do (Send socket (bytes_of_string message)) ;;
    match err with
    | Some e =>
        n <- GetNode Ret ;;
        log_Fatalf ("Node %s failed to send '%s': %s" ++ nl) [Str n; Str message; Str (Error e)]
    | None => Ret tt
    end).

Definition receive (socket : Socket) : prog string :=
  func (
    r <- do (Recv socket) ;;
    match r with
    | inr err =>
        n <- GetNode Ret ;;
        log_Fatalf ("Node %s failed receiving a message: %s" ++ nl) [Str n; Str (Error err)]
    | inl bytes =>
        let message := string_of_bytes bytes in
        n <- GetNode Ret ;;
        log_Printf ("Node %s received %s" ++ nl) [Str n; Str message] ;;
        Ret message
    end).

(** The body of the loop of [runNode], for counter [i]. *)
Definition round_trip (socket : Socket) (i : Z) : prog unit :=
  n <- GetNode Ret ;;
  send socket (Sprintf "message %d from node %s." [Int i; Str n]) ;;
  _ <- receive socket ;;
  do (time_Sleep (1 * time_Second)).

Definition runNode (url : string) : prog unit :=
  func (
    socket <- newSocket ;;
    err <- do (Listen socket url) ;;
    match err with
    | Some e =>
        n <- GetNode Ret ;;
        log_Printf ("Node %s cannot listen on socket '%s': %s" ++ nl ++ "Trying to dial instead" ++ nl)
                   [Str n; Str url; Str (Error e)] ;;
        err <- do (Dial socket url) ;;
        match err with
        | Some e =>
            n <- GetNode Ret ;;
            log_Fatalf ("Node %s can neither listen nor dial on socket '%s': %s" ++ nl)
                       [Str n; Str url; Str (Error e)]
        | None => Ret tt
        end
    | None => Ret tt
    end ;;
    Defer (Deferred (Close socket)) (Ret tt) ;;
    for_lt 0 3 (round_trip socket) ;;
    n <- GetNode Ret ;;
    log_Printf ("Node %s: Done." ++ nl) [Str n]).

(** [os.Args] is the argument of [main]; indexing it out of range panics. *)
Definition at_index (args : list string) (i : nat) : prog string :=
  match nth_error args i with
  | Some a => Ret a
  | None => Panic "runtime error: index out of range"
  end.

Definition main (os_Args : list string) : prog unit :=
  func (
    if (Z.of_nat (List.length os_Args) <=? 2) then
      a0 <- at_index os_Args 0 ;;
      log_Printf ("Usage: %s 0|1 <url>" ++ nl) [Str a0]
    else
      a1 <- at_index os_Args 1 ;;
      SetNode a1 (Ret tt) ;;
      a2 <- at_index os_Args 2 ;;
      runNode a2).

(** ** Running a program *)

(** How a process ends: its main function returned, [os.Exit] was called,
    or a panic reached the top. *)
Inductive outcome (A : Type) : Type :=
| Returned (a : A)
| Exited (code : Z)
| Panicked (msg : string).

Arguments Returned {A} a.
Arguments Exited {A} code.
Arguments Panicked {A} msg.

Definition exit_status {A : Type} (o : outcome A) : Z :=
  match o with
  | Returned _ => 0
  | Exited code => code
  | Panicked _ => 2
  end.

(** The state of a run: the globals, what happened so far (oldest event
    first) and the deferred calls of the frame that is still open. *)
Record state : Type := mkState {
  globals : Globals;
  trace : list event;
  pending : list deferred
}.

Definition emit (es : list event) (st : state) : state :=
  mkState (globals st) (trace st ++ es) (pending st).

Definition set_node (v : string) (st : state) : state :=
  mkState (mkGlobals v) (trace st) (pending st).

Definition set_pending (ds : list deferred) (st : state) : state :=
  mkState (globals st) (trace st) ds.

Fixpoint exec {A : Type} (w : env) (st : state) (p : prog A) : state * outcome A :=
  match p with
  | Ret a => (st, Returned a)
  | Call c k =>
      let r := w _ (trace st) c in
      exec w (emit [observe c r] st) (k r)
  | GetNode k => exec w st (k (node (globals st)))
  | SetNode v k => exec w (set_node v st) k
  | Defer d k => exec w (set_pending (d :: pending st) st) k
  | os_Exit code => (st, Exited code)
  | Panic msg => (st, Panicked msg)
  end.

(** A process starts with [node] at its zero value and nothing done yet. *)
Definition start : state := mkState (mkGlobals EmptyString) [] [].

Definition run (w : env) (os_Args : list string) : state * outcome unit :=
  exec w start (main os_Args).

(** ** Reading a trace *)

Definition is_send (e : event) : bool :=
  match e with ESend _ _ _ => true | _ => false end.

Definition is_recv (e : event) : bool :=
  match e with ERecv _ _ => true | _ => false end.

Definition is_close (e : event) : bool :=
  match e with EClose _ _ => true | _ => false end.

Definition is_connect (e : event) : bool :=
  match e with EListen _ _ _ | EDial _ _ _ => true | _ => false end.

(** A call on the library (anything but logging and sleeping). *)
Definition is_messaging (e : event) : bool :=
  match e with ELog _ | ESleep _ => false | _ => true end.

(** The payloads handed to [Send], in order. *)
Fixpoint sent (tr : list event) : list bytes :=
  match tr with
  | [] => []
  | ESend _ b _ :: tr' => b :: sent tr'
  | _ :: tr' => sent tr'
  end.

(** The endpoint as the calls made on handle [s] configure it: the
    protocol it was created for, the transports added to it in order, and
    the receive deadline last asked for.  The [error] that [SetOption]
    returns is not looked at, as [newSocket] does not look at it. *)
Record Endpoint : Type := mkEndpoint {
  protocol : Protocol;
  transports : list Transport;
  recv_deadline : option Duration
}.

Definition configure (s : Socket) (ep : option Endpoint) (e : event) : option Endpoint :=
  match e, ep with
  | ENewSocket p (inl s'), _ =>
      if Nat.eqb s s' then Some (mkEndpoint p [] None) else ep
  | EAddTransport s' t, Some c =>
      if Nat.eqb s s' then Some (mkEndpoint (protocol c) (transports c ++ [t]) (recv_deadline c))
      else ep
  | ESetOption s' name (VDuration d) _, Some c =>
      if Nat.eqb s s' && String.eqb name mangos_OptionRecvDeadline
      then Some (mkEndpoint (protocol c) (transports c) (Some d))
      else ep
  | _, _ => ep
  end.

Definition endpoint_of (s : Socket) (tr : list event) : option Endpoint :=
  fold_left (configure s) tr None.

(** ** Scripted environments *)

(** An environment given by what it answers to socket creation, to
    [Listen], to [Dial], to the k-th [Send] and to the k-th [Recv] (counted
    from 0 over the history); every other call succeeds. *)
Record script : Type := mkScript {
  on_new : Socket + error;
  on_listen : option error;
  on_dial : option error;
  on_send : nat -> option error;
  on_recv : nat -> bytes + error
}.

Definition count (f : event -> bool) (tr : list event) : nat :=
  List.length (filter f tr).

Definition scripted (a : script) : env :=
  fun X h c =>
    match c in call X return X with
    | NewSocket _ => on_new a
    | AddTransport _ _ => tt
    | SetOption _ _ _ => None
    | Listen _ _ => on_listen a
    | Dial _ _ => on_dial a
    | Send _ _ => on_send a (count is_send h)
    | Recv _ => on_recv a (count is_recv h)
    | Close _ => None
    | log_Output _ => tt
    | time_Sleep _ => tt
    end.

Definition ErrAddrInUse : error := mkError "bind: address already in use".
Definition ErrConnRefused : error := mkError "connection refused".
Definition ErrRecvTimeout : error := mkError "receive time out".
Definition ErrClosed : error := mkError "connection closed".
Definition ErrNoMem : error := mkError "out of memory".

(** Everything works and the peer answers [pong]. *)
Definition peer_ok : script :=
  mkScript (inl 7%nat) None None (fun _ => None) (fun _ => inl (bytes_of_string "pong")).

Definition peer_listening : script :=
  mkScript (inl 7%nat) (Some ErrAddrInUse) None (fun _ => None)
           (fun _ => inl (bytes_of_string "pong")).

Definition nobody_there : script :=
  mkScript (inl 7%nat) (Some ErrAddrInUse) (Some ErrConnRefused) (fun _ => None)
           (fun _ => inl (bytes_of_string "pong")).

Definition peer_silent_at (k : nat) : script :=
  mkScript (inl 7%nat) None None (fun _ => None)
           (fun i => if Nat.eqb i k then inr ErrRecvTimeout else inl (bytes_of_string "pong")).

Definition link_down_at (k : nat) : script :=
  mkScript (inl 7%nat) None None
           (fun i => if Nat.eqb i k then Some ErrClosed else None)
           (fun _ => inl (bytes_of_string "pong")).

Definition no_socket : script :=
  mkScript (inr ErrNoMem) None None (fun _ => None) (fun _ => inl (bytes_of_string "pong")).

Definition tcp_url : string := "tcp://localhost:54545".


(** ** The lines the program logs *)

Section Lines.

(** The role, the value of [node]. *)
Variable n : string.

Definition message (i : Z) : string :=
  "message " ++ itoa i ++ " from node " ++ n ++ ".".

Definition line_sends (m : string) : string :=
  "Node " ++ n ++ " sends " ++ m ++ nl.

Definition line_send_failed (m : string) (e : error) : string :=
  "Node " ++ n ++ " failed to send '" ++ m ++ "': " ++ Error e ++ nl.

Definition line_received (m : string) : string :=
  "Node " ++ n ++ " received " ++ m ++ nl.

Definition line_recv_failed (e : error) : string :=
  "Node " ++ n ++ " failed receiving a message: " ++ Error e ++ nl.

Definition line_no_socket (e : error) : string :=
  "Node " ++ n ++ ": Cannot create socket: " ++ Error e ++ nl.

Definition line_cannot_listen (url : string) (e : error) : string :=
  "Node " ++ n ++ " cannot listen on socket '" ++ url ++ "': " ++ Error e ++ nl
  ++ "Trying to dial instead" ++ nl.

Definition line_no_connection (url : string) (e : error) : string :=
  "Node " ++ n ++ " can neither listen nor dial on socket '" ++ url ++ "': "
  ++ Error e ++ nl.

Definition line_done : string := "Node " ++ n ++ ": Done." ++ nl.

End Lines.

Definition line_usage (a0 : string) : string := "Usage: " ++ a0 ++ " 0|1 <url>" ++ nl.

(** ** The behaviours of each function *)

(** What each function can add to the trace, and how it ends, whatever the
    environment answers.  [n] is the value of [node] during the call. *)
Section Behaviours.

Variable n : string.

Inductive creating : list event -> outcome Socket -> Prop :=
| creating_ok (s : Socket) (r : option error) :
    creating [ENewSocket Pair (inl s); EAddTransport s Ipc; EAddTransport s Tcp;
              ESetOption s mangos_OptionRecvDeadline (VDuration (10 * time_Second)) r]
             (Returned s)
| creating_fails (e : error) :
    creating [ENewSocket Pair (inr e); ELog (line_no_socket n e)] (Exited 1).

Inductive sending (s : Socket) (m : string) : list event -> outcome unit -> Prop :=
| sending_ok :
    sending s m [ELog (line_sends n m); ESend s (bytes_of_string m) None] (Returned tt)
| sending_fails (e : error) :
    sending s m [ELog (line_sends n m); ESend s (bytes_of_string m) (Some e);
                 ELog (line_send_failed n m e)] (Exited 1).

Inductive receiving (s : Socket) : list event -> outcome string -> Prop :=
| receiving_ok (b : bytes) :
    receiving s [ERecv s (inl b); ELog (line_received n (string_of_bytes b))]
              (Returned (string_of_bytes b))
| receiving_fails (e : error) :
    receiving s [ERecv s (inr e); ELog (line_recv_failed n e)] (Exited 1).

(** Listen, then dial if that failed. *)
Inductive connecting (s : Socket) (url : string) : list event -> outcome unit -> Prop :=
| connecting_listens :
    connecting s url [EListen s url None] (Returned tt)
| connecting_dials (e : error) :
    connecting s url [EListen s url (Some e); ELog (line_cannot_listen n url e);
                      EDial s url None] (Returned tt)
| connecting_fails (e e' : error) :
    connecting s url [EListen s url (Some e); ELog (line_cannot_listen n url e);
                      EDial s url (Some e'); ELog (line_no_connection n url e')]
               (Exited 1).

(** One pass through the loop body for counter [i]. *)
Inductive round (s : Socket) (i : Z) : list event -> outcome unit -> Prop :=
| round_ok (b : bytes) :
    round s i [ELog (line_sends n (message n i));
               ESend s (bytes_of_string (message n i)) None;
               ERecv s (inl b);
               ELog (line_received n (string_of_bytes b));
               ESleep (1 * time_Second)] (Returned tt)
| round_send_fails (e : error) :
    round s i [ELog (line_sends n (message n i));
               ESend s (bytes_of_string (message n i)) (Some e);
               ELog (line_send_failed n (message n i) e)] (Exited 1)
| round_recv_fails (e : error) :
    round s i [ELog (line_sends n (message n i));
               ESend s (bytes_of_string (message n i)) None;
               ERecv s (inr e);
               ELog (line_recv_failed n e)] (Exited 1).

(** [k] passes starting with counter [i]; the first pass that fails ends
    the process. *)
Inductive exchange (s : Socket) : nat -> Z -> list event -> outcome unit -> Prop :=
| exchange_done (i : Z) :
    exchange s 0 i [] (Returned tt)
| exchange_stops (k : nat) (i : Z) (tl : list event) (code : Z) :
    round s i tl (Exited code) ->
    exchange s (S k) i tl (Exited code)
| exchange_goes_on (k : nat) (i : Z) (tl tl' : list event) (o : outcome unit) :
    round s i tl (Returned tt) ->
    exchange s k (i + 1) tl' o ->
    exchange s (S k) i (tl ++ tl') o.

(** A whole call of [runNode]. *)
Inductive node_run (url : string) : list event -> outcome unit -> Prop :=
| node_run_no_socket (tl : list event) (code : Z) :
    creating tl (Exited code) ->
    node_run url tl (Exited code)
| node_run_no_connection (s : Socket) (tl tl' : list event) (code : Z) :
    creating tl (Returned s) ->
    connecting s url tl' (Exited code) ->
    node_run url (tl ++ tl') (Exited code)
| node_run_breaks (s : Socket) (tl tl' tl'' : list event) (code : Z) :
    creating tl (Returned s) ->
    connecting s url tl' (Returned tt) ->
    exchange s 3 0 tl'' (Exited code) ->
    node_run url (tl ++ tl' ++ tl'') (Exited code)
| node_run_done (s : Socket) (tl tl' tl'' : list event) (r : option error) :
    creating tl (Returned s) ->
    connecting s url tl' (Returned tt) ->
    exchange s 3 0 tl'' (Returned tt) ->
    node_run url (tl ++ tl' ++ tl'' ++ [ELog (line_done n); EClose s r]) (Returned tt).

End Behaviours.

Create HintDb behaviours.
#[local] Hint Constructors creating sending receiving connecting round exchange node_run : behaviours.

(** ** Runs of [runNode] *)

(** The state in which [main] calls [runNode]: [node] holds the role and
    nothing has happened yet. *)
Definition with_role (n : string) : state := mkState (mkGlobals n) [] [].

Definition node_trace (w : env) (n url : string) : list event :=
  trace (fst (exec w (with_role n) (runNode url))).

Definition node_outcome (w : env) (n url : string) : outcome unit :=
  snd (exec w (with_role n) (runNode url)).

(** Every socket created in the trace is closed in it. *)
Definition released (tr : list event) : Prop :=
  forall s, In (ENewSocket Pair (inl s)) tr -> exists r, In (EClose s r) tr.

(** The peer of the walkthrough: node 1, answering pass [k] with its own
    message [k]; seen from node 0, which listens, and from node 1, which
    finds the address taken and dials. *)
Definition peer_node (role : string) (listen : option error) : script :=
  mkScript (inl 7%nat) listen None (fun _ => None)
           (fun k => inl (bytes_of_string
                            ("message " ++ itoa (Z.of_nat k) ++ " from node " ++ role ++ "."))).

(** Answers with other payloads than [peer_ok]. *)
Definition peer_chatty : script :=
  mkScript (inl 7%nat) None None (fun _ => None)
           (fun i => inl (bytes_of_string (itoa (Z.of_nat i)))).

(** A property of every place of a trace: of the events before it, the
    event there and the events after it. *)
Definition everywhere (P : list event -> event -> list event -> Prop)
           (tr : list event) : Prop :=
  forall pre e post, tr = (pre ++ e :: post)%list -> P pre e post.

(** The events of the exchange loop. *)
Definition is_loop_event (e : event) : bool :=
  match e with
  | ELog _ | ESend _ _ _ | ERecv _ _ | ESleep _ => true
  | _ => false
  end.

(** The payloads of the first [k] passes of the loop, from counter [i] on. *)
Fixpoint payloads (n : string) (k : nat) (i : Z) : list bytes :=
  match k with
  | O => []
  | S k' => bytes_of_string (message n i) :: payloads n k' (i + 1)
  end.

(** A send or a receive. *)
Definition is_io (e : event) : bool := is_send e || is_recv e.

(** Successful round trips on [s] from counter [i] on, one for each reply
    of [replies]. *)
Fixpoint round_trips (n : string) (s : Socket) (i : Z) (replies : list bytes)
  : list event :=
  match replies with
  | [] => []
  | b :: replies' =>
      ESend s (bytes_of_string (message n i)) None :: ERecv s (inl b)
      :: round_trips n s (i + 1) replies'
  end.

(** The lines logged, in order. *)
Fixpoint logged (tr : list event) : list string :=
  match tr with
  | [] => []
  | ELog line :: tr' => line :: logged tr'
  | _ :: tr' => logged tr'
  end.

(** ** Properties of a place in a trace *)

Section Places.

Variables (n : string) (o : outcome unit).

(** After a failed receive: the fatal line, and the process is gone. *)
Definition recv_failure_ends (pre : list event) (e : event) (post : list event) : Prop :=
  match e with
  | ERecv _ (inr err) => post = [ELog (line_recv_failed n err)] /\ o = Exited 1
  | _ => True
  end.

(** After a failed send of the pass with counter [i], [lo <= i < hi]: the
    fatal line with the payload, and the process is gone. *)
Definition send_failure_ends (lo hi : Z)
           (pre : list event) (e : event) (post : list event) : Prop :=
  match e with
  | ESend _ b (Some err) =>
      exists i, lo <= i < hi
                /\ b = bytes_of_string (message n i)
                /\ post = [ELog (line_send_failed n (message n i) err)]
                /\ o = Exited 1
  | _ => True
  end.

(** Before a receive, one more payload has been sent than replies have
    been asked for, in the order of the counter from [i] on. *)
Definition sends_first (i : Z)
           (pre : list event) (e : event) (post : list event) : Prop :=
  match e with
  | ERecv _ _ => sent pre = payloads n (S (count is_recv pre)) i
  | _ => True
  end.

(** A reply is followed by its log line and a sleep of one second, and
    every sleep is such a sleep. *)
Definition paced (pre : list event) (e : event) (post : list event) : Prop :=
  match e with
  | ERecv _ (inl b) =>
      exists post',
        post = ELog (line_received n (string_of_bytes b))
               :: ESleep (1 * time_Second) :: post'
  | ESleep d =>
      d = 1 * time_Second
      /\ exists pre' s b,
           pre = (pre' ++ [ERecv s (inl b);
                           ELog (line_received n (string_of_bytes b))])%list
  | _ => True
  end.

End Places.

(** ** More readings of a trace *)

(** The socket a call is made on (socket creation has none yet). *)
Definition socket_of (e : event) : option Socket :=
  match e with
  | EAddTransport s _ | ESetOption s _ _ _ | EListen s _ _ | EDial s _ _
  | ESend s _ _ | ERecv s _ | EClose s _ => Some s
  | ENewSocket _ _ | ELog _ | ESleep _ => None
  end.

Definition on_socket (s : Socket) (e : event) : Prop :=
  match socket_of e with
  | Some s' => s' = s
  | None => True
  end.

Definition is_new_socket (e : event) : bool :=
  match e with ENewSocket _ _ => true | _ => false end.

(** An event of the run after the factory: on socket [s], not a socket
    creation, and without effect on any endpoint's configuration. *)
Definition after_factory (s : Socket) (e : event) : Prop :=
  on_socket s e
  /\ is_new_socket e = false
  /\ forall s' ep, configure s' ep e = ep.

(** A receive that brought a reply. *)
Definition is_reply (e : event) : bool :=
  match e with ERecv _ (inl _) => true | _ => false end.


(** The time spent in [time.Sleep]. *)
Fixpoint slept (tr : list event) : Duration :=
  match tr with
  | [] => 0
  | ESleep d :: tr' => d + slept tr'
  | _ :: tr' => slept tr'
  end.

(** Before a send, the line that announces its payload has been logged. *)
Definition announced (n : string) (pre : list event) (e : event) (post : list event)
  : Prop :=
  match e with
  | ESend _ b _ =>
      exists pre' m, pre = (pre' ++ [ELog (line_sends n m)])%list
                     /\ b = bytes_of_string m
  | _ => True
  end.

(** A peer whose k-th reply is the k-th of [replies] and that is silent
    after them; [listen] is what the process gets from [Listen]. *)
Definition replying (replies : list bytes) (listen : option error) : script :=
  mkScript (inl 7%nat) listen None (fun _ => None)
           (fun k => match nth_error replies k with
                     | Some b => inl b
                     | None => inr ErrRecvTimeout
                     end).

(** ** How [exec] goes through [bind] and [func] *)

Lemma emit_nil (st : state) : emit [] st = st.
Proof. destruct st; unfold emit; simpl; now rewrite app_nil_r. Qed.

Lemma emit_emit (a b : list event) (st : state) :
  emit b (emit a st) = emit (a ++ b) st.
Proof. unfold emit; simpl; now rewrite app_assoc. Qed.

Lemma set_pending_same (st : state) : set_pending (pending st) st = st.
Proof. now destruct st. Qed.

Lemma exec_bind (A B : Type) (w : env) (p : prog A) (f : A -> prog B) :
  forall st,
    exec w st (bind p f) =
    match exec w st p with
    | (st', Returned a) => exec w st' (f a)
    | (st', Exited code) => (st', Exited code)
    | (st', Panicked msg) => (st', Panicked msg)
    end.
Proof.
  induction p as [a | X c k IH | k IH | v k IH | d k IH | code | msg];
    intro st; simpl; auto.
Qed.

Lemma exec_scope (A : Type) (w : env) (p : prog A) :
  forall ds st,
    exec w st (scope ds p) =
    match exec w (set_pending ds st) p with
    | (st', Returned a) =>
        exec w (set_pending (pending st) st') (run_deferred (pending st') (Ret a))
    | (st', Exited code) => (set_pending (pending st) st', Exited code)
    | (st', Panicked msg) =>
        exec w (set_pending (pending st) st') (run_deferred (pending st') (Panic msg))
    end.
Proof.
  induction p as [a | X c k IH | k IH | v k IH | d k IH | code | msg];
    intros ds st; simpl; try (now rewrite IH); now destruct st.
Qed.

(** A function without [defer] that is run in a state [st] leaves the
    frame of its caller alone. *)
Lemma exec_func_emit (A : Type) (w : env) (body : prog A) (st : state)
      (tl : list event) (o : outcome A) :
  exec w (set_pending [] st) body = (emit tl (set_pending [] st), o) ->
  exec w st (func body) = (emit tl st, o).
Proof.
  intro E. unfold func. rewrite exec_scope, E.
  destruct o; simpl; destruct st; reflexivity.
Qed.

(** ** Each function has only the behaviours listed *)

Arguments newSocket : simpl never.
Arguments send : simpl never.
Arguments receive : simpl never.
Arguments round_trip : simpl never.
Arguments runNode : simpl never.

(** The format strings of the program, applied. *)
Lemma fmt_message (i : Z) (n : string) :
  Sprintf "message %d from node %s." [Int i; Str n] = message n i.
Proof. reflexivity. Qed.

Lemma fmt_sends (n m : string) :
  Sprintf ("Node %s sends %s" ++ nl) [Str n; Str m] = line_sends n m.
Proof. reflexivity. Qed.

Lemma fmt_send_failed (n m : string) (e : error) :
  Sprintf ("Node %s failed to send '%s': %s" ++ nl) [Str n; Str m; Str (Error e)]
  = line_send_failed n m e.
Proof. reflexivity. Qed.

Lemma fmt_received (n m : string) :
  Sprintf ("Node %s received %s" ++ nl) [Str n; Str m] = line_received n m.
Proof. reflexivity. Qed.

Lemma fmt_recv_failed (n : string) (e : error) :
  Sprintf ("Node %s failed receiving a message: %s" ++ nl) [Str n; Str (Error e)]
  = line_recv_failed n e.
Proof. reflexivity. Qed.

Lemma fmt_no_socket (n : string) (e : error) :
  Sprintf ("Node %s: Cannot create socket: %s" ++ nl) [Str n; Str (Error e)]
  = line_no_socket n e.
Proof. reflexivity. Qed.

Lemma fmt_cannot_listen (n url : string) (e : error) :
  Sprintf ("Node %s cannot listen on socket '%s': %s" ++ nl ++ "Trying to dial instead" ++ nl)
          [Str n; Str url; Str (Error e)]
  = line_cannot_listen n url e.
Proof. reflexivity. Qed.

Lemma fmt_no_connection (n url : string) (e : error) :
  Sprintf ("Node %s can neither listen nor dial on socket '%s': %s" ++ nl)
          [Str n; Str url; Str (Error e)]
  = line_no_connection n url e.
Proof. reflexivity. Qed.

Lemma fmt_done (n : string) :
  Sprintf ("Node %s: Done." ++ nl) [Str n] = line_done n.
Proof. reflexivity. Qed.

Lemma fmt_usage (a0 : string) :
  Sprintf ("Usage: %s 0|1 <url>" ++ nl) [Str a0] = line_usage a0.
Proof. reflexivity. Qed.

Lemma globals_emit (es : list event) (st : state) : globals (emit es st) = globals st.
Proof. reflexivity. Qed.

Lemma globals_set_pending (ds : list deferred) (st : state) :
  globals (set_pending ds st) = globals st.
Proof. reflexivity. Qed.

Lemma pending_emit (es : list event) (st : state) : pending (emit es st) = pending st.
Proof. reflexivity. Qed.

Create Rewrite HintDb lines.
Lemma pending_set_pending (ds : list deferred) (st : state) :
  pending (set_pending ds st) = ds.
Proof. reflexivity. Qed.

Lemma set_pending_emit (ds : list deferred) (es : list event) (st : state) :
  set_pending ds (emit es st) = emit es (set_pending ds st).
Proof. reflexivity. Qed.

Lemma set_pending_twice (ds ds' : list deferred) (st : state) :
  set_pending ds (set_pending ds' st) = set_pending ds st.
Proof. reflexivity. Qed.

#[local] Hint Rewrite fmt_message fmt_sends fmt_send_failed fmt_received fmt_recv_failed
  fmt_no_socket fmt_cannot_listen fmt_no_connection fmt_done fmt_usage
  globals_emit globals_set_pending pending_emit pending_set_pending emit_emit
  set_pending_emit set_pending_twice set_pending_same : lines.
#[local] Hint Rewrite <- app_assoc : lines.

(** Take the next answer of the environment apart. *)
Ltac answer w :=
  match goal with
  | |- context [w ?X ?h ?c] =>
      let E := fresh "E" in
      destruct (w X h c) eqn:E
  end.

Ltac step := cbn [exec bind do log_Printf log_Fatalf observe].

(** An answer of type [unit] carries nothing. *)
Ltac tick w :=
  repeat match goal with
         | |- context [w unit ?h ?c] => destruct (w unit h c)
         end.

Ltac settle w :=
  step; autorewrite with lines; cbn [app]; tick w;
  eexists; eexists; split; [reflexivity | eauto with behaviours].

Section Sound.

Variable w : env.

(** A body that registers no deferred call behaves the same as a
    function. *)
Lemma func_sound (A : Type) (body : prog A)
      (P : list event -> outcome A -> Prop) (st : state) :
  (exists tl o, exec w (set_pending [] st) body = (emit tl (set_pending [] st), o)
                /\ P tl o) ->
  exists tl o, exec w st (func body) = (emit tl st, o) /\ P tl o.
Proof.
  intros (tl & o & E & H). exists tl, o. split; [now apply exec_func_emit | exact H].
Qed.

Lemma newSocket_sound (st : state) :
  exists tl o, exec w st newSocket = (emit tl st, o)
               /\ creating (node (globals st)) tl o.
Proof.
  unfold newSocket. apply func_sound. step. answer w; settle w.
Qed.

Lemma send_sound (s : Socket) (m : string) (st : state) :
  exists tl o, exec w st (send s m) = (emit tl st, o)
               /\ sending (node (globals st)) s m tl o.
Proof.
  unfold send. apply func_sound. step. answer w; settle w.
Qed.

Lemma receive_sound (s : Socket) (st : state) :
  exists tl o, exec w st (receive s) = (emit tl st, o)
               /\ receiving (node (globals st)) s tl o.
Proof.
  unfold receive. apply func_sound. step. answer w; settle w.
Qed.

Lemma round_trip_sound (s : Socket) (i : Z) (st : state) :
  exists tl o, exec w st (round_trip s i) = (emit tl st, o)
               /\ round (node (globals st)) s i tl o.
Proof.
  unfold round_trip. step. rewrite fmt_message, exec_bind.
  destruct (send_sound s (message (node (globals st)) i) st) as (tl & o & E & H).
  rewrite E. inversion H; subst; clear H.
  - rewrite exec_bind.
    match goal with
    | |- context [exec w ?st' (receive s)] =>
        destruct (receive_sound s st') as (tl' & o' & E' & H')
    end.
    rewrite E'. inversion H'; subst; clear H'; settle w.
  - settle w.
Qed.

Lemma for_count_sound (s : Socket) (k : nat) :
  forall (i : Z) (st : state),
  exists tl o, exec w st (for_count k i (round_trip s)) = (emit tl st, o)
               /\ exchange (node (globals st)) s k i tl o.
Proof.
  induction k as [| k IH]; intros i st.
  - exists [], (Returned tt). simpl. rewrite emit_nil. auto with behaviours.
  - cbn [for_count]. rewrite exec_bind.
    destruct (round_trip_sound s i st) as (tl & o & E & H). rewrite E.
    destruct o as [[] | code | msg].
    + destruct (IH (i + 1) (emit tl st)) as (tl' & o' & E' & H').
      rewrite E', emit_emit. exists (tl ++ tl')%list, o'. split; [reflexivity |].
      eapply exchange_goes_on; eauto.
    + exists tl, (Exited code). split; [reflexivity |]. now apply exchange_stops.
    + inversion H.
Qed.

Lemma exchange_no_panic (n : string) (s : Socket) (k : nat) (i : Z)
      (tl : list event) (msg : string) :
  ~ exchange n s k i tl (Panicked msg).
Proof.
  intro H. remember (Panicked msg) as o eqn:Eo.
  induction H as [i | k i tl code R | k i tl tl' o R X IH]; try discriminate; auto.
Qed.

Lemma runNode_sound (url : string) (st : state) :
  exists tl o, exec w st (runNode url) = (emit tl st, o)
               /\ node_run (node (globals st)) url tl o.
Proof.
  unfold runNode, func. rewrite exec_scope, exec_bind.
  destruct (newSocket_sound (set_pending [] st)) as (tl & o & E & H). rewrite E.
  autorewrite with lines in H.
  destruct o as [s | code | msg]; [| | inversion H].
  2:{ autorewrite with lines. exists tl, (Exited code). split; [reflexivity |].
      now apply node_run_no_socket. }
  (* what follows the connection, whichever way it was made *)
  match goal with
  | |- context [bind (Defer ?d ?k) ?f] => set (rest := bind (Defer d k) f)
  end.
  assert (R : forall tl', exists tl'' o,
    exec w (emit tl' (set_pending [] st)) rest
    = (emit (tl' ++ tl'') (set_pending [Deferred (Close s)] st), o)
    /\ match o with
       | Returned _ => exists x, tl'' = (x ++ [ELog (line_done (node (globals st)))])%list
                                 /\ exchange (node (globals st)) s 3 0 x (Returned tt)
       | Exited code => exchange (node (globals st)) s 3 0 tl'' (Exited code)
       | Panicked _ => False
       end).
  { intro tl'. subst rest. cbn [bind exec]. rewrite exec_bind. unfold for_lt.
    match goal with
    | |- context [exec w ?st' (for_count ?k ?i (round_trip s))] =>
        destruct (for_count_sound s k i st') as (x & o & E' & H')
    end.
    rewrite E'. cbn in H'. autorewrite with lines in H'.
    destruct o as [[] | code | msg].
    - step. autorewrite with lines. tick w.
      eexists; eexists; split.
      + reflexivity.
      + exists x; split; [reflexivity | exact H'].
    - exists x, (Exited code). autorewrite with lines. split; [reflexivity | exact H'].
    - now apply exchange_no_panic in H'. }
  assert (F : forall c, connecting (node (globals st)) s url c (Returned tt) ->
    exists tl0 o0,
      match exec w (emit (tl ++ c) (set_pending [] st)) rest with
      | (st', Returned a) =>
          exec w (set_pending (pending st) st') (run_deferred (pending st') (Ret a))
      | (st', Exited code) => (set_pending (pending st) st', Exited code)
      | (st', Panicked msg) =>
          exec w (set_pending (pending st) st') (run_deferred (pending st') (Panic msg))
      end = (emit tl0 st, o0)
      /\ node_run (node (globals st)) url tl0 o0).
  { intros c C. destruct (R (tl ++ c)%list) as (tl'' & o & E' & H'). rewrite E'.
    destruct o as [[] | code | msg]; [| | contradiction].
    - destruct H' as (x & -> & X). autorewrite with lines.
      cbn [run_deferred exec observe]. answer w; autorewrite with lines;
        (eexists; eexists; split; [reflexivity | eapply node_run_done; eauto]).
    - autorewrite with lines.
      eexists; eexists; split; [reflexivity | eapply node_run_breaks; eauto]. }
  clearbody rest. clear R.
  step. answer w; step; [answer w; step |]; autorewrite with lines; tick w.
  - (* neither listen nor dial works *)
    eexists; eexists; split; [reflexivity |]. cbn [app].
    eapply node_run_no_connection; eauto with behaviours.
  - (* the process dials *)
    cbn [app]. apply F. constructor.
  - (* the process listens *)
    apply F. constructor.
Qed.

End Sound.

(** ** Places of a trace *)

Lemma everywhere_nil (P : list event -> event -> list event -> Prop) :
  everywhere P [].
Proof. intros [| x pre] e post H; discriminate H. Qed.

Lemma everywhere_cons (P : list event -> event -> list event -> Prop)
      (x : event) (tr : list event) :
  P [] x tr ->
  everywhere (fun pre e post => P (x :: pre) e post) tr ->
  everywhere P (x :: tr).
Proof.
  intros Hx Htr [| y pre] e post H; simpl in H; inversion H; subst; auto.
Qed.

Lemma everywhere_app (P : list event -> event -> list event -> Prop)
      (a b : list event) :
  everywhere (fun pre e post => P pre e (post ++ b)%list) a ->
  everywhere (fun pre e post => P (a ++ pre)%list e post) b ->
  everywhere P (a ++ b).
Proof.
  revert P. induction a as [| x a IH]; intros P Ha Hb.
  - exact Hb.
  - simpl. apply everywhere_cons.
    + apply (Ha [] x a). reflexivity.
    + apply IH.
      * intros pre e post H. apply (Ha (x :: pre) e post). simpl. now rewrite H.
      * exact Hb.
Qed.

Lemma everywhere_impl (P Q : list event -> event -> list event -> Prop)
      (tr : list event) :
  (forall pre e post, P pre e post -> Q pre e post) ->
  everywhere P tr -> everywhere Q tr.
Proof. intros PQ H pre e post E. apply PQ, H, E. Qed.

(** Peel a trace that is written out, event by event. *)
Ltac peel :=
  repeat match goal with
         | |- everywhere _ [] => apply everywhere_nil
         | |- everywhere _ (_ :: _) => apply everywhere_cons
         end.

Lemma count_app (f : event -> bool) (a b : list event) :
  count f (a ++ b) = (count f a + count f b)%nat.
Proof. unfold count. now rewrite filter_app, length_app. Qed.

Lemma sent_app (a b : list event) : sent (a ++ b) = (sent a ++ sent b)%list.
Proof.
  induction a as [| x a IH]; [reflexivity |].
  destruct x; simpl; now rewrite ?IH.
Qed.

(** ** What a run of [runNode] looks like *)

Lemma node_run_holds (w : env) (n url : string) :
  node_run n url (node_trace w n url) (node_outcome w n url).
Proof.
  unfold node_trace, node_outcome.
  destruct (runNode_sound w url (with_role n)) as (tl & o & E & H).
  rewrite E. exact H.
Qed.

Lemma node_unchanged (w : env) (n url : string) :
  globals (fst (exec w (with_role n) (runNode url))) = mkGlobals n.
Proof.
  destruct (runNode_sound w url (with_role n)) as (tl & o & E & H).
  now rewrite E.
Qed.

(** ** The command line *)

Lemma run_usage (w : env) (os_Args : list string) (name : string) :
  (List.length os_Args <= 2)%nat ->
  nth_error os_Args 0 = Some name ->
  run w os_Args = (mkState (mkGlobals EmptyString) [ELog (line_usage name)] [], Returned tt).
Proof.
  intros L A. unfold run, main, func, at_index.
  destruct (Z.leb_spec (Z.of_nat (List.length os_Args)) 2) as [_ | G]; [| lia].
  rewrite A. cbn [bind log_Printf do scope run_deferred exec observe].
  rewrite fmt_usage. tick w. reflexivity.
Qed.

Lemma run_node (w : env) (name role url : string) (more : list string) :
  run w (name :: role :: url :: more) = exec w (with_role role) (runNode url).
Proof.
  unfold run, main, func, at_index.
  destruct (Z.leb_spec (Z.of_nat (List.length (name :: role :: url :: more))) 2)
    as [G | _]; [simpl List.length in G; lia |].
  cbn [nth_error bind scope exec]. fold (func (runNode url)).
  destruct (runNode_sound w url (with_role role)) as (tl & o & E & H).
  rewrite E. apply exec_func_emit. exact E.
Qed.

(** C8. Called with fewer than two positional arguments, the process logs
    the usage line and does nothing else: no call on the messaging library
    and a normal return of [main].  Called with a role and an address (and
    possibly more), it stores the first in [node] and runs [runNode] on the
    second. *)
Theorem main_arguments (w : env) (name : string) (positional : list string) :
  match positional with
  | role :: url :: _ =>
      run w (name :: positional) = exec w (with_role role) (runNode url)
      /\ node (globals (fst (run w (name :: positional)))) = role
  | _ =>
      run w (name :: positional)
      = (mkState (mkGlobals EmptyString) [ELog (line_usage name)] [], Returned tt)
      /\ count is_messaging (trace (fst (run w (name :: positional)))) = 0%nat
      /\ exit_status (snd (run w (name :: positional))) = 0
  end.
Proof.
  destruct positional as [| role [| url more]].
  - rewrite run_usage with (name := name); simpl; auto.
  - rewrite run_usage with (name := name); simpl; auto.
  - rewrite run_node. split; [reflexivity |]. now rewrite node_unchanged.
Qed.

(** ** The endpoint factory *)

(** C4. [newSocket] either returns a handle that it has created for the
    pair protocol, given the IPC and the TCP transport and a receive
    deadline of 10 seconds, by exactly these four calls, or, when the
    library cannot create the socket, logs a line that names the role and
    exits with status 1 having done nothing else. *)
Theorem newSocket_configures (w : env) (n : string) :
  match exec w (with_role n) newSocket with
  | (st, Returned s) =>
      endpoint_of s (trace st)
      = Some (mkEndpoint Pair [Ipc; Tcp] (Some (10 * time_Second)))
      /\ exists r,
           trace st = [ENewSocket Pair (inl s); EAddTransport s Ipc; EAddTransport s Tcp;
                       ESetOption s mangos_OptionRecvDeadline
                                  (VDuration (10 * time_Second)) r]
  | (st, Exited code) =>
      code = 1
      /\ exists e, trace st = [ENewSocket Pair (inr e);
                               ELog ("Node " ++ n ++ ": Cannot create socket: "
                                     ++ Error e ++ nl)]
  | (st, Panicked _) => False
  end.
Proof.
  destruct (newSocket_sound w (with_role n)) as (tl & o & E & H).
  rewrite E. inversion H; subst; clear H; cbn [emit trace with_role app].
  - split; [| now exists r].
    unfold endpoint_of. cbn [fold_left configure].
    rewrite !(Nat.eqb_refl s). reflexivity.
  - split; [reflexivity |]. exists e. reflexivity.
Qed.

(** ** The exchange loop only logs, sends, receives and sleeps *)

Lemma round_events (n : string) (s : Socket) (i : Z) (tl : list event) (o : outcome unit) :
  round n s i tl o -> Forall (fun e => is_loop_event e = true) tl.
Proof. intro H; destruct H; repeat constructor. Qed.

Lemma exchange_events (n : string) (s : Socket) (k : nat) (i : Z)
      (tl : list event) (o : outcome unit) :
  exchange n s k i tl o -> Forall (fun e => is_loop_event e = true) tl.
Proof.
  intro H. induction H as [i | k i tl code R | k i tl tl' o R X IH].
  - constructor.
  - eapply round_events; eauto.
  - apply Forall_app. split; [eapply round_events; eauto | exact IH].
Qed.

Lemma filter_none (f : event -> bool) (tl : list event) :
  (forall e, is_loop_event e = true -> f e = false) ->
  Forall (fun e => is_loop_event e = true) tl ->
  filter f tl = [].
Proof.
  intros F H. induction H as [| e tl He H IH]; [reflexivity |].
  simpl. now rewrite (F e He).
Qed.

Lemma exchange_no_connect (n : string) (s : Socket) (k : nat) (i : Z)
      (tl : list event) (o : outcome unit) :
  exchange n s k i tl o -> filter is_connect tl = [].
Proof.
  intro H. apply filter_none; [| eapply exchange_events; eauto].
  intros [] E; try discriminate E; reflexivity.
Qed.

Lemma exchange_no_close (n : string) (s : Socket) (k : nat) (i : Z)
      (tl : list event) (o : outcome unit) :
  exchange n s k i tl o -> count is_close tl = 0%nat.
Proof.
  intro H. unfold count. rewrite filter_none; [reflexivity | | eapply exchange_events; eauto].
  intros [] E; try discriminate E; reflexivity.
Qed.

Lemma round_exit_code (n : string) (s : Socket) (i : Z) (tl : list event) (code : Z) :
  round n s i tl (Exited code) -> code = 1.
Proof. intro H; now inversion H. Qed.

Lemma exchange_exit_code (n : string) (s : Socket) (k : nat) (i : Z)
      (tl : list event) (code : Z) :
  exchange n s k i tl (Exited code) -> code = 1.
Proof.
  intro H. remember (Exited code) as o eqn:Eo. revert Eo.
  induction H as [i | k i tl c R | k i tl tl' o R X IH]; intro Eo.
  - discriminate Eo.
  - inversion Eo; subst. eapply round_exit_code; eauto.
  - auto.
Qed.

Lemma creating_no_close (n : string) (tl : list event) (o : outcome Socket) :
  creating n tl o -> count is_close tl = 0%nat.
Proof. intro H; now destruct H. Qed.

Lemma connecting_no_close (n : string) (s : Socket) (url : string)
      (tl : list event) (o : outcome unit) :
  connecting n s url tl o -> count is_close tl = 0%nat.
Proof. intro H; now destruct H. Qed.

Lemma creating_exit_code (n : string) (tl : list event) (code : Z) :
  creating n tl (Exited code) -> code = 1.
Proof. intro H; now inversion H. Qed.

Lemma connecting_exit_code (n : string) (s : Socket) (url : string)
      (tl : list event) (code : Z) :
  connecting n s url tl (Exited code) -> code = 1.
Proof. intro H; now inversion H. Qed.

Lemma creating_socket (n : string) (tl : list event) (s : Socket) :
  creating n tl (Returned s) -> In (ENewSocket Pair (inl s)) tl.
Proof. intro H; inversion H; subst. now left. Qed.

(** Take a run of [runNode] apart along its behaviours. *)
Ltac run_cases w n url :=
  generalize (node_run_holds w n url);
  generalize (node_trace w n url) (node_outcome w n url);
  let tr := fresh "tr" in
  let o := fresh "o" in
  let H := fresh "H" in
  intros tr o H;
  destruct H as [tl code Cr | s tl tl' code Cr Co | s tl tl' tl'' code Cr Co Ex
                 | s tl tl' tl'' r Cr Co Ex].

(** ** Release of the endpoint *)

(** C1, as the code has it.  [runNode] closes the socket it created when,
    and only when, it returns: then [Close] is its last call and its only
    [Close].  On every fatal path (no socket, neither listen nor dial, a
    failed send, a failed receive) [log.Fatalf] ends the process with
    status 1 and [Close] is never called. *)
Theorem runNode_closes_on_return (w : env) (n url : string) :
  match node_outcome w n url with
  | Returned _ =>
      exists s pre r,
        node_trace w n url = (pre ++ [EClose s r])%list
        /\ In (ENewSocket Pair (inl s)) pre
        /\ count is_close pre = 0%nat
  | Exited code => code = 1 /\ count is_close (node_trace w n url) = 0%nat
  | Panicked _ => False
  end.
Proof.
  run_cases w n url.
  - split; [eapply creating_exit_code | eapply creating_no_close]; eauto.
  - rewrite count_app, (creating_no_close Cr), (connecting_no_close Co).
    split; [eapply connecting_exit_code; eauto | reflexivity].
  - rewrite !count_app, (creating_no_close Cr), (connecting_no_close Co),
      (exchange_no_close Ex).
    split; [eapply exchange_exit_code; eauto | reflexivity].
  - exists s, (tl ++ tl' ++ tl'' ++ [ELog (line_done n)])%list, r.
    split; [| split].
    + rewrite <- !app_assoc. reflexivity.
    + apply in_or_app. left. now apply creating_socket with (n := n).
    + rewrite !count_app, (creating_no_close Cr), (connecting_no_close Co),
        (exchange_no_close Ex). reflexivity.
Qed.

(** C1 fails as stated: after a failed send, after a receive that timed
    out and when neither listen nor dial works, the process exits with the
    socket created and never closed. *)
Lemma fatal_paths_leave_socket_open :
  (node_outcome (scripted (link_down_at 0)) "0" tcp_url = Exited 1
   /\ ~ released (node_trace (scripted (link_down_at 0)) "0" tcp_url))
  /\ (node_outcome (scripted (peer_silent_at 0)) "0" tcp_url = Exited 1
      /\ ~ released (node_trace (scripted (peer_silent_at 0)) "0" tcp_url))
  /\ (node_outcome (scripted nobody_there) "0" tcp_url = Exited 1
      /\ ~ released (node_trace (scripted nobody_there) "0" tcp_url)).
Proof.
  repeat split; try (vm_compute; reflexivity);
    intro H; destruct (H 7%nat) as [r C];
    try (vm_compute; now left);
    vm_compute in C;
    repeat (destruct C as [C | C]; [discriminate C |]); exact C.
Qed.

(** ** Connection establishment *)

(** C2. Once the socket exists and is configured, the next call of
    [runNode] is [Listen] on the address.  [Dial] is called exactly when
    [Listen] failed: once, right after the failure is logged, on the same
    socket and address.  When [Dial] fails too, the process logs that it
    can neither listen nor dial and exits with status 1.  Nothing that
    follows is a [Listen] or a [Dial]. *)
Theorem listen_then_dial_once (w : env) (n url : string) :
  let tr := node_trace w n url in
  (exists e, tr = [ENewSocket Pair (inr e); ELog (line_no_socket n e)])
  \/ (exists s r post,
        let created :=
          [ENewSocket Pair (inl s); EAddTransport s Ipc; EAddTransport s Tcp;
           ESetOption s mangos_OptionRecvDeadline (VDuration (10 * time_Second)) r] in
        filter is_connect post = []
        /\ (tr = (created ++ [EListen s url None] ++ post)%list
            \/ (exists e,
                  tr = (created ++ [EListen s url (Some e);
                                    ELog (line_cannot_listen n url e);
                                    EDial s url None] ++ post)%list)
            \/ (exists e e',
                  tr = (created ++ [EListen s url (Some e);
                                    ELog (line_cannot_listen n url e);
                                    EDial s url (Some e');
                                    ELog (line_no_connection n url e')])%list
                  /\ post = []
                  /\ node_outcome w n url = Exited 1))).
Proof.
  cbv zeta. run_cases w n url.
  - left. inversion Cr; subst. now exists e.
  - right. inversion Cr; subst. inversion Co; subst.
    exists s, r, []. split; [reflexivity |].
    right; right. exists e, e'. auto.
  - right. inversion Cr; subst.
    exists s, r, tl''. split; [eapply exchange_no_connect; eauto |].
    inversion Co; subst; [left; reflexivity | right; left].
    exists e. reflexivity.
  - right. inversion Cr; subst.
    exists s, r0, (tl'' ++ [ELog (line_done n); EClose s r])%list. split.
    + rewrite filter_app, (exchange_no_connect Ex). reflexivity.
    + inversion Co; subst; [left; reflexivity | right; left].
      exists e. reflexivity.
Qed.

(** ** The exchange loop *)

Lemma exchange_round_trips (n : string) (s : Socket) (k : nat) (i : Z)
      (tl : list event) :
  exchange n s k i tl (Returned tt) ->
  exists replies,
    List.length replies = k
    /\ filter is_io tl = round_trips n s i replies
    /\ sent tl = payloads n k i.
Proof.
  intro H. remember (Returned tt) as o eqn:Eo. revert Eo.
  induction H as [i | k i tl code R | k i tl tl' o R X IH]; intro Eo.
  - exists []. auto.
  - discriminate Eo.
  - destruct (IH Eo) as (replies & L & F & S).
    inversion R; subst.
    exists (b :: replies). rewrite filter_app, sent_app, F, S. auto.
Qed.

Lemma logged_app (a b : list event) : logged (a ++ b) = (logged a ++ logged b)%list.
Proof.
  induction a as [| x a IH]; [reflexivity |].
  destruct x; simpl; now rewrite ?IH.
Qed.

Lemma creating_no_io (n : string) (tl : list event) (o : outcome Socket) :
  creating n tl o -> filter is_io tl = [] /\ sent tl = [].
Proof. intro H; now destruct H. Qed.

Lemma connecting_no_io (n : string) (s : Socket) (url : string)
      (tl : list event) (o : outcome unit) :
  connecting n s url tl o -> filter is_io tl = [] /\ sent tl = [].
Proof. intro H; now destruct H. Qed.

(** A run that returns has made three round trips on its socket and then
    logged that it is done and closed the socket. *)
Lemma returned_run (w : env) (n url : string) :
  node_outcome w n url = Returned tt ->
  exists s b0 b1 b2 pre r,
    node_trace w n url = (pre ++ [ELog (line_done n); EClose s r])%list
    /\ filter is_io pre = round_trips n s 0 [b0; b1; b2]
    /\ sent pre = payloads n 3 0.
Proof.
  run_cases w n url; try discriminate. intros _.
  destruct (exchange_round_trips Ex) as (replies & L & F & S).
  destruct replies as [| b0 [| b1 [| b2 [| b3 more]]]]; try discriminate L.
  exists s, b0, b1, b2, (tl ++ tl' ++ tl'')%list, r.
  destruct (creating_no_io Cr) as [F1 S1]. destruct (connecting_no_io Co) as [F2 S2].
  rewrite !filter_app, !sent_app, F1, F2, S1, S2, F, S, <- !app_assoc. auto.
Qed.

(** C3. A run that returns has made exactly three round trips, each a
    send followed by a receive, with the payloads [message 0 from node
    <role>.], [message 1 from node <role>.] and [message 2 from node
    <role>.], and after the third it has logged [Node <role>: Done.] *)
Theorem three_round_trips (w : env) (n url : string) :
  node_outcome w n url = Returned tt ->
  exists s b0 b1 b2 pre r,
    node_trace w n url
    = (pre ++ [ELog ("Node " ++ n ++ ": Done." ++ nl); EClose s r])%list
    /\ filter is_io pre
       = [ESend s (bytes_of_string ("message 0 from node " ++ n ++ ".")) None;
          ERecv s (inl b0);
          ESend s (bytes_of_string ("message 1 from node " ++ n ++ ".")) None;
          ERecv s (inl b1);
          ESend s (bytes_of_string ("message 2 from node " ++ n ++ ".")) None;
          ERecv s (inl b2)].
Proof.
  intro R. destruct (returned_run w n url R) as (s & b0 & b1 & b2 & pre & r & T & F & _).
  exists s, b0, b1, b2, pre, r. split; [exact T | exact F].
Qed.

Lemma three_round_trips_witness :
  node_outcome (scripted peer_listening) "1" tcp_url = Returned tt
  /\ exists s b0 b1 b2 pre r,
       node_trace (scripted peer_listening) "1" tcp_url
       = (pre ++ [ELog ("Node " ++ "1" ++ ": Done." ++ nl); EClose s r])%list
       /\ filter is_io pre
          = [ESend s (bytes_of_string ("message 0 from node " ++ "1" ++ ".")) None;
             ERecv s (inl b0);
             ESend s (bytes_of_string ("message 1 from node " ++ "1" ++ ".")) None;
             ERecv s (inl b1);
             ESend s (bytes_of_string ("message 2 from node " ++ "1" ++ ".")) None;
             ERecv s (inl b2)].
Proof.
  split; [vm_compute; reflexivity |].
  apply (three_round_trips (scripted peer_listening) "1" tcp_url).
  vm_compute; reflexivity.
Defined.

(** C10. The payloads a process sends depend on its role alone: two runs
    with the same role that both return, whatever the environments
    answered and whatever the replies contained, have sent the same three
    payloads and have logged the same completion line last. *)
Theorem sends_ignore_replies (w1 w2 : env) (n url : string) :
  node_outcome w1 n url = Returned tt ->
  node_outcome w2 n url = Returned tt ->
  sent (node_trace w1 n url) = sent (node_trace w2 n url)
  /\ sent (node_trace w1 n url)
     = [bytes_of_string ("message 0 from node " ++ n ++ ".");
        bytes_of_string ("message 1 from node " ++ n ++ ".");
        bytes_of_string ("message 2 from node " ++ n ++ ".")]
  /\ last (logged (node_trace w1 n url)) EmptyString
     = last (logged (node_trace w2 n url)) EmptyString
  /\ last (logged (node_trace w1 n url)) EmptyString = "Node " ++ n ++ ": Done." ++ nl.
Proof.
  assert (G : forall w, node_outcome w n url = Returned tt ->
            sent (node_trace w n url) = payloads n 3 0
            /\ last (logged (node_trace w n url)) EmptyString = line_done n).
  { intros w R. destruct (returned_run w n url R) as (s & b0 & b1 & b2 & pre & r & T & _ & S).
    rewrite T, sent_app, logged_app, S. split.
    - cbn [sent app]. now rewrite app_nil_r.
    - cbn [logged]. apply last_last. }
  intros R1 R2. destruct (G w1 R1) as [S1 L1]. destruct (G w2 R2) as [S2 L2].
  rewrite S1, S2, L1, L2. repeat split.
Qed.

Lemma sends_ignore_replies_witness :
  let tr1 := node_trace (scripted peer_ok) "0" tcp_url in
  let tr2 := node_trace (scripted peer_chatty) "0" tcp_url in
  node_outcome (scripted peer_ok) "0" tcp_url = Returned tt
  /\ node_outcome (scripted peer_chatty) "0" tcp_url = Returned tt
  /\ filter is_recv tr1 <> filter is_recv tr2
  /\ sent tr1 = sent tr2
  /\ sent tr1
     = [bytes_of_string ("message 0 from node " ++ "0" ++ ".");
        bytes_of_string ("message 1 from node " ++ "0" ++ ".");
        bytes_of_string ("message 2 from node " ++ "0" ++ ".")]
  /\ last (logged tr1) EmptyString = last (logged tr2) EmptyString
  /\ last (logged tr1) EmptyString = "Node " ++ "0" ++ ": Done." ++ nl.
Proof.
  cbv zeta.
  split; [vm_compute; reflexivity |]. split; [vm_compute; reflexivity |].
  split; [vm_compute; discriminate |].
  apply (sends_ignore_replies (scripted peer_ok) (scripted peer_chatty) "0" tcp_url);
    vm_compute; reflexivity.
Defined.

(** ** Failures in the loop *)

Lemma exchange_recv_failure (n : string) (s : Socket) (k : nat) (i : Z)
      (tl : list event) (o : outcome unit) :
  exchange n s k i tl o -> everywhere (recv_failure_ends n o) tl.
Proof.
  intro H. induction H as [i | k i tl code R | k i tl tl' o R X IH].
  - apply everywhere_nil.
  - inversion R; subst; peel; cbn; auto.
  - apply everywhere_app; [inversion R; subst; peel; cbn; auto |].
    eapply everywhere_impl; [| exact IH]. auto.
Qed.

Lemma recv_failure_everywhere (w : env) (n url : string) :
  everywhere (recv_failure_ends n (node_outcome w n url)) (node_trace w n url).
Proof.
  run_cases w n url.
  - inversion Cr; subst; peel; cbn; auto.
  - inversion Cr; subst; inversion Co; subst; cbn [app]; peel; cbn; auto.
  - apply everywhere_app; [inversion Cr; subst; peel; cbn; auto |].
    apply everywhere_app; [inversion Co; subst; peel; cbn; auto |].
    eapply everywhere_impl; [| eapply exchange_recv_failure; eauto]. auto.
  - apply everywhere_app; [inversion Cr; subst; peel; cbn; auto |].
    apply everywhere_app; [inversion Co; subst; peel; cbn; auto |].
    apply everywhere_app; [| peel; cbn; auto].
    eapply everywhere_impl; [| eapply exchange_recv_failure; eauto].
    intros p x q. destruct x as [| | | | | | ? [b | err] | | |]; cbn; auto.
    intros [_ D]. discriminate D.
Qed.

(** C6. When a receive fails, a timeout included, the next thing the
    process does is log the receive-failure line with its role, and then it
    exits with status 1: nothing follows, in particular no second receive. *)
Theorem failed_receive_is_fatal (w : env) (n url : string)
        (pre : list event) (s : Socket) (e : error) (post : list event) :
  node_trace w n url = (pre ++ ERecv s (inr e) :: post)%list ->
  post = [ELog ("Node " ++ n ++ " failed receiving a message: " ++ Error e ++ nl)]
  /\ node_outcome w n url = Exited 1
  /\ count is_recv post = 0%nat.
Proof.
  intro T.
  destruct (recv_failure_everywhere w n url pre (ERecv s (inr e)) post T) as [P O].
  subst post. repeat split. exact O.
Qed.

Lemma failed_receive_is_fatal_witness :
  let tr := node_trace (scripted (peer_silent_at 1)) "0" tcp_url in
  tr = (firstn 12 tr ++ ERecv 7%nat (inr ErrRecvTimeout) :: skipn 13 tr)%list
  /\ skipn 13 tr = [ELog ("Node " ++ "0" ++ " failed receiving a message: "
                          ++ Error ErrRecvTimeout ++ nl)]
  /\ node_outcome (scripted (peer_silent_at 1)) "0" tcp_url = Exited 1
  /\ count is_recv (skipn 13 tr) = 0%nat.
Proof.
  cbv zeta. split; [vm_compute; reflexivity |].
  apply (@failed_receive_is_fatal (scripted (peer_silent_at 1)) "0" tcp_url
           (firstn 12 (node_trace (scripted (peer_silent_at 1)) "0" tcp_url))
           7%nat ErrRecvTimeout
           (skipn 13 (node_trace (scripted (peer_silent_at 1)) "0" tcp_url))).
  vm_compute; reflexivity.
Defined.

Lemma exchange_send_failure (n : string) (s : Socket) (k : nat) (i : Z)
      (tl : list event) (o : outcome unit) :
  exchange n s k i tl o ->
  everywhere (send_failure_ends n o i (i + Z.of_nat k)) tl.
Proof.
  intro H. induction H as [i | k i tl code R | k i tl tl' o R X IH].
  - apply everywhere_nil.
  - inversion R; subst; peel; cbn; auto.
    exists i. repeat split; lia.
  - apply everywhere_app; [inversion R; subst; peel; cbn; auto |].
    eapply everywhere_impl; [| exact IH].
    intros p x q. destruct x as [| | | | | ? ? [err |] | | | |]; cbn; auto.
    intros (j & B & P). exists j. split; [lia | exact P].
Qed.

Lemma send_failure_everywhere (w : env) (n url : string) :
  everywhere (send_failure_ends n (node_outcome w n url) 0 3) (node_trace w n url).
Proof.
  run_cases w n url.
  - inversion Cr; subst; peel; cbn; auto.
  - inversion Cr; subst; inversion Co; subst; cbn [app]; peel; cbn; auto.
  - apply everywhere_app; [inversion Cr; subst; peel; cbn; auto |].
    apply everywhere_app; [inversion Co; subst; peel; cbn; auto |].
    eapply everywhere_impl; [| eapply exchange_send_failure; eauto]. auto.
  - apply everywhere_app; [inversion Cr; subst; peel; cbn; auto |].
    apply everywhere_app; [inversion Co; subst; peel; cbn; auto |].
    apply everywhere_app; [| peel; cbn; auto].
    eapply everywhere_impl; [| eapply exchange_send_failure; eauto].
    intros p x q. destruct x as [| | | | | ? ? [err |] | | | |]; cbn; auto.
    intros (j & _ & _ & _ & D). discriminate D.
Qed.

(** C7. When a send fails, the next thing the process does is log a line
    that carries its role and the payload it could not send, and then it
    exits with status 1. *)
Theorem failed_send_is_fatal (w : env) (n url : string)
        (pre : list event) (s : Socket) (b : bytes) (e : error) (post : list event) :
  node_trace w n url = (pre ++ ESend s b (Some e) :: post)%list ->
  exists i,
    0 <= i < 3
    /\ b = bytes_of_string (message n i)
    /\ post = [ELog ("Node " ++ n ++ " failed to send '" ++ message n i ++ "': "
                     ++ Error e ++ nl)]
    /\ node_outcome w n url = Exited 1.
Proof.
  intro T.
  exact (send_failure_everywhere w n url pre (ESend s b (Some e)) post T).
Qed.

Lemma failed_send_is_fatal_witness :
  let tr := node_trace (scripted (link_down_at 2)) "1" tcp_url in
  tr = (firstn 16 tr
        ++ ESend 7%nat (bytes_of_string "message 2 from node 1.") (Some ErrClosed)
        :: skipn 17 tr)%list
  /\ exists i,
       0 <= i < 3
       /\ bytes_of_string "message 2 from node 1." = bytes_of_string (message "1" i)
       /\ skipn 17 tr = [ELog ("Node " ++ "1" ++ " failed to send '" ++ message "1" i ++ "': "
                               ++ Error ErrClosed ++ nl)]
       /\ node_outcome (scripted (link_down_at 2)) "1" tcp_url = Exited 1.
Proof.
  cbv zeta. split; [vm_compute; reflexivity |].
  apply (@failed_send_is_fatal (scripted (link_down_at 2)) "1" tcp_url
           (firstn 16 (node_trace (scripted (link_down_at 2)) "1" tcp_url))
           7%nat (bytes_of_string "message 2 from node 1.") ErrClosed
           (skipn 17 (node_trace (scripted (link_down_at 2)) "1" tcp_url))).
  vm_compute; reflexivity.
Defined.

(** ** Order inside a pass *)

Lemma count_send_sent (tr : list event) : count is_send tr = List.length (sent tr).
Proof.
  unfold count. induction tr as [| x tr IH]; [reflexivity |].
  destruct x; simpl; now rewrite ?IH.
Qed.

Lemma payloads_length (n : string) (k : nat) (i : Z) : List.length (payloads n k i) = k.
Proof. revert i. induction k as [| k IH]; intro i; simpl; now rewrite ?IH. Qed.

Lemma exchange_sends_first (n : string) (s : Socket) (k : nat) (i : Z)
      (tl : list event) (o : outcome unit) :
  exchange n s k i tl o -> everywhere (sends_first n i) tl.
Proof.
  intro H. induction H as [i | k i tl code R | k i tl tl' o R X IH].
  - apply everywhere_nil.
  - inversion R; subst; peel; cbn; auto.
  - apply everywhere_app; [inversion R; subst; peel; cbn; auto |].
    eapply everywhere_impl; [| exact IH].
    intros p x q. destruct x; cbn; auto.
    intro S. inversion R; subst.
    rewrite sent_app, count_app, S. reflexivity.
Qed.

(** Receives come in passes of the loop, of which there are [k]. *)
Lemma exchange_recv_count (n : string) (s : Socket) (k : nat) (i : Z)
      (tl : list event) (o : outcome unit) :
  exchange n s k i tl o -> (count is_recv tl <= k)%nat.
Proof.
  intro H. induction H as [i | k i tl code R | k i tl tl' o R X IH].
  - auto.
  - inversion R; subst; cbn; lia.
  - rewrite count_app. inversion R; subst. cbn. cbn in IH. lia.
Qed.

Lemma sends_first_everywhere (w : env) (n url : string) :
  everywhere (sends_first n 0) (node_trace w n url)
  /\ (count is_recv (node_trace w n url) <= 3)%nat.
Proof.
  assert (P : forall s tl tl' o o', creating n tl o -> connecting n s url tl' o' ->
            forall p x q, sends_first n 0 p x q -> sends_first n 0 (tl ++ tl' ++ p) x q).
  { intros s tl tl' o o' Cr Co p x q. destruct x; cbn; auto.
    rewrite !sent_app, !count_app.
    destruct Cr; destruct Co; cbn; auto. }
  run_cases w n url.
  - inversion Cr; subst; split; [peel; cbn; auto | cbn; lia].
  - inversion Cr; subst; inversion Co; subst; split; [cbn [app]; peel; cbn; auto | cbn; lia].
  - split.
    + apply everywhere_app; [inversion Cr; subst; peel; cbn; auto |].
      apply everywhere_app; [inversion Co; subst; peel; cbn; auto |].
      eapply everywhere_impl; [| eapply exchange_sends_first; eauto].
      intros p x q S. apply (P _ _ _ _ _ Cr Co) in S. exact S.
    + rewrite !count_app. pose proof (exchange_recv_count Ex).
      destruct Cr; inversion Co; subst; cbn; cbn in H; lia.
  - split.
    + apply everywhere_app; [inversion Cr; subst; peel; cbn; auto |].
      apply everywhere_app; [inversion Co; subst; peel; cbn; auto |].
      apply everywhere_app; [| peel; cbn; auto].
      eapply everywhere_impl; [| eapply exchange_sends_first; eauto].
      intros p x q S. apply (P _ _ _ _ _ Cr Co) in S. exact S.
    + rewrite !count_app. pose proof (exchange_recv_count Ex).
      destruct Cr; inversion Co; subst; cbn; cbn in H; lia.
Qed.

(** C5. Whenever the process asks for a reply, it has sent one payload
    more than it has asked for replies before: the receive of pass [i]
    (the [i] earlier receives are those of the passes before it, and
    [i < 3]) comes after the sends of the passes [0] to [i], the last of
    which is the send of pass [i] itself. *)
Theorem send_before_receive (w : env) (n url : string)
        (pre : list event) (e : event) (post : list event) :
  node_trace w n url = (pre ++ e :: post)%list ->
  is_recv e = true ->
  count is_send pre = S (count is_recv pre)
  /\ sent pre = payloads n (S (count is_recv pre)) 0
  /\ (count is_recv pre < 3)%nat.
Proof.
  intros T R. destruct (sends_first_everywhere w n url) as [F B].
  pose proof (F pre e post T) as Hs.
  destruct e; try discriminate R. unfold sends_first in Hs.
  split; [| split].
  - now rewrite count_send_sent, Hs, payloads_length.
  - exact Hs.
  - rewrite T, count_app in B. cbn in B. lia.
Qed.

Lemma send_before_receive_witness :
  let tr := node_trace (scripted peer_ok) "0" tcp_url in
  tr = (firstn 17 tr ++ ERecv 7%nat (inl (bytes_of_string "pong")) :: skipn 18 tr)%list
  /\ is_recv (ERecv 7%nat (inl (bytes_of_string "pong"))) = true
  /\ count is_send (firstn 17 tr) = S (count is_recv (firstn 17 tr))
  /\ sent (firstn 17 tr) = payloads "0" (S (count is_recv (firstn 17 tr))) 0
  /\ (count is_recv (firstn 17 tr) < 3)%nat.
Proof.
  cbv zeta. split; [vm_compute; reflexivity |]. split; [reflexivity |].
  apply (@send_before_receive (scripted peer_ok) "0" tcp_url
           (firstn 17 (node_trace (scripted peer_ok) "0" tcp_url))
           (ERecv 7%nat (inl (bytes_of_string "pong")))
           (skipn 18 (node_trace (scripted peer_ok) "0" tcp_url)));
    vm_compute; reflexivity.
Defined.

(** ** Pacing *)

Lemma paced_extends (n : string) (a b : list event)
      (pre : list event) (e : event) (post : list event) :
  paced n pre e post -> paced n (a ++ pre) e (post ++ b).
Proof.
  destruct e as [| | | | | | s [r | err] | | | d]; cbn; auto.
  - intros (post' & ->). exists (post' ++ b)%list. reflexivity.
  - intros (D & pre' & s & r & ->). split; [exact D |].
    exists (a ++ pre')%list, s, r. now rewrite app_assoc.
Qed.

Lemma round_paced (n : string) (s : Socket) (i : Z) (tl : list event) (o : outcome unit) :
  round n s i tl o -> everywhere (paced n) tl.
Proof.
  intro R. inversion R; subst; peel; cbn; auto.
  - eexists. reflexivity.
  - split; [reflexivity |].
    exists [ELog (line_sends n (message n i)); ESend s (bytes_of_string (message n i)) None],
      s, b.
    reflexivity.
Qed.

Lemma exchange_paced (n : string) (s : Socket) (k : nat) (i : Z)
      (tl : list event) (o : outcome unit) :
  exchange n s k i tl o -> everywhere (paced n) tl.
Proof.
  intro H. induction H as [i | k i tl code R | k i tl tl' o R X IH].
  - apply everywhere_nil.
  - eapply round_paced; eauto.
  - apply everywhere_app.
    + eapply everywhere_impl; [| eapply round_paced; eauto].
      intros p x q P. apply (paced_extends n [] tl') in P. exact P.
    + eapply everywhere_impl; [| exact IH].
      intros p x q P. apply (paced_extends n tl []) in P.
      now rewrite app_nil_r in P.
Qed.

Lemma paced_everywhere (w : env) (n url : string) :
  everywhere (paced n) (node_trace w n url).
Proof.
  run_cases w n url.
  - inversion Cr; subst; peel; cbn; auto.
  - inversion Cr; subst; inversion Co; subst; cbn [app]; peel; cbn; auto.
  - apply everywhere_app; [inversion Cr; subst; peel; cbn; auto |].
    apply everywhere_app; [inversion Co; subst; peel; cbn; auto |].
    eapply everywhere_impl; [| eapply exchange_paced; eauto].
    intros p x q P. apply (paced_extends n tl' []) in P.
    apply (paced_extends n tl []) in P. now rewrite !app_nil_r in P.
  - apply everywhere_app; [inversion Cr; subst; peel; cbn; auto |].
    apply everywhere_app; [inversion Co; subst; peel; cbn; auto |].
    apply everywhere_app; [| peel; cbn; auto].
    eapply everywhere_impl; [| eapply exchange_paced; eauto].
    intros p x q P. apply (paced_extends n tl' [ELog (line_done n); EClose s r]) in P.
    apply (paced_extends n tl []) in P. now rewrite !app_nil_r in P.
Qed.

(** C9. After each reply the process logs it and then sleeps for exactly
    one second, before anything else and so before the next send; and
    every sleep of a run is such a sleep of one second, right after a
    reply and its log line. *)
Theorem one_second_after_each_reply (w : env) (n url : string)
        (pre : list event) (e : event) (post : list event) :
  node_trace w n url = (pre ++ e :: post)%list ->
  (forall s b, e = ERecv s (inl b) ->
     exists post',
       post = ELog (line_received n (string_of_bytes b))
              :: ESleep (1 * time_Second) :: post')
  /\ (forall d, e = ESleep d ->
        d = 1 * time_Second
        /\ exists pre' s b,
             pre = (pre' ++ [ERecv s (inl b);
                             ELog (line_received n (string_of_bytes b))])%list).
Proof.
  intro T. pose proof (paced_everywhere w n url pre e post T) as P.
  split; intros; subst e; exact P.
Qed.

Lemma one_second_after_each_reply_witness :
  let tr := node_trace (scripted peer_listening) "1" tcp_url in
  tr = (firstn 11 tr ++ ESleep 1000000000 :: skipn 12 tr)%list
  /\ (forall s b, ESleep 1000000000 = ERecv s (inl b) ->
        exists post',
          skipn 12 tr = ELog (line_received "1" (string_of_bytes b))
                        :: ESleep (1 * time_Second) :: post')
  /\ (forall d, ESleep 1000000000 = ESleep d ->
        d = 1 * time_Second
        /\ exists pre' s b,
             firstn 11 tr = (pre' ++ [ERecv s (inl b);
                                      ELog (line_received "1" (string_of_bytes b))])%list).
Proof.
  cbv zeta. split; [vm_compute; reflexivity |].
  apply (@one_second_after_each_reply (scripted peer_listening) "1" tcp_url
           (firstn 11 (node_trace (scripted peer_listening) "1" tcp_url))
           (ESleep 1000000000)
           (skipn 12 (node_trace (scripted peer_listening) "1" tcp_url))).
  vm_compute; reflexivity.
Defined.

(** ** The runs of the walkthrough *)

(** Node 0 started first: it listens, and logs what the text shows. *)
Example walkthrough_node_0 :
  logged (trace (fst (run (scripted (peer_node "1" None))
                          ["./messaging"; "0"; "tcp://localhost:45454"])))
  = ["Node 0 sends message 0 from node 0." ++ nl;
     "Node 0 received message 0 from node 1." ++ nl;
     "Node 0 sends message 1 from node 0." ++ nl;
     "Node 0 received message 1 from node 1." ++ nl;
     "Node 0 sends message 2 from node 0." ++ nl;
     "Node 0 received message 2 from node 1." ++ nl;
     "Node 0: Done." ++ nl].
Proof. vm_compute. reflexivity. Qed.

(** Node 1 started second: it cannot listen and dials. *)
Example walkthrough_node_1 :
  logged (trace (fst (run (scripted (peer_node "0" (Some ErrAddrInUse)))
                          ["./messaging"; "1"; "tcp://localhost:45454"])))
  = ["Node 1 cannot listen on socket 'tcp://localhost:45454': bind: address already in use"
       ++ nl ++ "Trying to dial instead" ++ nl;
     "Node 1 sends message 0 from node 1." ++ nl;
     "Node 1 received message 0 from node 0." ++ nl;
     "Node 1 sends message 1 from node 1." ++ nl;
     "Node 1 received message 1 from node 0." ++ nl;
     "Node 1 sends message 2 from node 1." ++ nl;
     "Node 1 received message 2 from node 0." ++ nl;
     "Node 1: Done." ++ nl].
Proof. vm_compute. reflexivity. Qed.

(** With no socket to be had the process stops at once. *)
Example run_without_socket :
  run (scripted no_socket) ["./messaging"; "1"; tcp_url]
  = (mkState (mkGlobals "1")
             [ENewSocket Pair (inr ErrNoMem);
              ELog ("Node 1: Cannot create socket: out of memory" ++ nl)] [],
     Exited 1).
Proof. vm_compute. reflexivity. Qed.

(** An empty [os.Args] makes [os.Args[0]] panic before anything is logged. *)
Example run_without_program_name (w : env) :
  run w [] = (start, Panicked "runtime error: index out of range").
Proof. reflexivity. Qed.

(** ** [send] and [receive] on their own *)

(** X1. [send], on any message and in any state: it logs the message,
    hands its bytes to [Send] once, and returns; or, when [Send] fails,
    logs the failure with the message and exits with status 1.  It touches
    neither [node] nor the deferred calls of its caller. *)
Theorem send_any_message (w : env) (st : state) (s : Socket) (m : string) :
  let n := node (globals st) in
  match exec w st (send s m) with
  | (st', Returned _) =>
      st' = emit [ELog (line_sends n m); ESend s (bytes_of_string m) None] st
  | (st', Exited code) =>
      code = 1
      /\ exists e,
           st' = emit [ELog (line_sends n m); ESend s (bytes_of_string m) (Some e);
                       ELog (line_send_failed n m e)] st
  | (st', Panicked _) => False
  end.
Proof.
  cbv zeta. destruct (send_sound w s m st) as (tl & o & E & H).
  rewrite E. inversion H; subst; [reflexivity |].
  split; [reflexivity |]. now exists e.
Qed.

(** X2. What [send] hands to the socket, [receive] reads back: when the
    reply that arrives is the bytes of a string [m], [receive] logs the
    line with [m] and returns [m] itself. *)
Theorem receive_reads_back (w : env) (st : state) (s : Socket) (m : string) :
  w (bytes + error)%type (trace st) (Recv s) = inl (bytes_of_string m) ->
  exec w st (receive s)
  = (emit [ERecv s (inl (bytes_of_string m));
           ELog (line_received (node (globals st)) m)] st,
     Returned m).
Proof.
  intro A. unfold receive. apply exec_func_emit. step.
  change (trace (set_pending [] st)) with (trace st). rewrite A. step.
  autorewrite with lines. tick w.
  unfold string_of_bytes, bytes_of_string.
  rewrite string_of_list_byte_of_string. reflexivity.
Qed.

Lemma receive_reads_back_witness :
  @scripted (replying [bytes_of_string "hello"] None) (bytes + error)%type
            (trace (with_role "0")) (Recv 7%nat)
  = inl (bytes_of_string "hello")
  /\ exec (scripted (replying [bytes_of_string "hello"] None)) (with_role "0")
          (receive 7%nat)
     = (emit [ERecv 7%nat (inl (bytes_of_string "hello"));
              ELog (line_received (node (globals (with_role "0"))) "hello")]
             (with_role "0"),
        Returned "hello").
Proof.
  split; [reflexivity |].
  apply (@receive_reads_back (scripted (replying [bytes_of_string "hello"] None))
           (with_role "0") 7%nat "hello").
  reflexivity.
Defined.

(** ** One socket, configured once *)

Lemma exchange_after_factory (n : string) (s : Socket) (k : nat) (i : Z)
      (tl : list event) (o : outcome unit) :
  exchange n s k i tl o -> Forall (after_factory s) tl.
Proof.
  assert (R : forall i tl o, round n s i tl o -> Forall (after_factory s) tl).
  { intros j l o' H. inversion H; subst;
      repeat constructor; intros s' [c |]; reflexivity. }
  intro H. induction H as [i | k i tl code H | k i tl tl' o H X IH].
  - constructor.
  - eapply R; eauto.
  - apply Forall_app. split; [eapply R; eauto | exact IH].
Qed.

Lemma connecting_after_factory (n : string) (s : Socket) (url : string)
      (tl : list event) (o : outcome unit) :
  connecting n s url tl o -> Forall (after_factory s) tl.
Proof.
  intro H. inversion H; subst; repeat constructor; intros s' [c |]; reflexivity.
Qed.

(** A run that has created socket [s] is the four calls of the factory on
    [s] followed by events on [s] that create and configure nothing. *)
Lemma run_of_socket (w : env) (n url : string) (sock : Socket) :
  In (ENewSocket Pair (inl sock)) (node_trace w n url) ->
  exists r rest,
    node_trace w n url
    = ([ENewSocket Pair (inl sock); EAddTransport sock Ipc; EAddTransport sock Tcp;
        ESetOption sock mangos_OptionRecvDeadline (VDuration (10 * time_Second)) r]
       ++ rest)%list
    /\ Forall (after_factory sock) rest.
Proof.
  assert (G : forall s0 r rest,
    Forall (after_factory s0) rest ->
    In (ENewSocket Pair (inl sock))
       ([ENewSocket Pair (inl s0); EAddTransport s0 Ipc; EAddTransport s0 Tcp;
         ESetOption s0 mangos_OptionRecvDeadline (VDuration (10 * time_Second)) r]
        ++ rest)%list ->
    sock = s0).
  { intros s0 r rest F I. apply in_app_or in I. destruct I as [I | I].
    - simpl in I. destruct I as [I | [I | [I | [I | []]]]]; try discriminate I.
      now inversion I.
    - rewrite Forall_forall in F. destruct (F _ I) as (_ & N & _). discriminate N. }
  run_cases w n url; intro I.
  - inversion Cr; subst. simpl in I. destruct I as [I | [I | []]]; discriminate I.
  - inversion Cr; subst.
    pose proof (connecting_after_factory Co) as F.
    rewrite (G _ _ _ F I) in *. eauto.
  - inversion Cr; subst.
    assert (F : Forall (after_factory s) (tl' ++ tl'')).
    { apply Forall_app. split;
        [eapply connecting_after_factory | eapply exchange_after_factory]; eauto. }
    rewrite (G _ _ _ F I) in *. eauto.
  - inversion Cr; subst.
    assert (F : Forall (after_factory s)
                       (tl' ++ tl'' ++ [ELog (line_done n); EClose s r])).
    { apply Forall_app. split; [eapply connecting_after_factory; eauto |].
      apply Forall_app. split; [eapply exchange_after_factory; eauto |].
      repeat constructor; intros s' [c |]; reflexivity. }
    rewrite (G _ _ _ F I) in *. eauto.
Qed.

(** X3. A run uses one socket: it creates a socket once, and every call it
    makes on a socket is on the one it created. *)
Theorem one_socket_per_run (w : env) (n url : string) (s : Socket) :
  In (ENewSocket Pair (inl s)) (node_trace w n url) ->
  count is_new_socket (node_trace w n url) = 1%nat
  /\ Forall (on_socket s) (node_trace w n url).
Proof.
  intro I. destruct (run_of_socket w n url s I) as (r & rest & T & F).
  rewrite T. split.
  - rewrite count_app. cbn. unfold count.
    replace (filter is_new_socket rest) with (@nil event); [reflexivity |].
    symmetry. clear T. induction F as [| e rest (_ & N & _) F IH]; [reflexivity |].
    simpl. now rewrite N.
  - apply Forall_app. split.
    + repeat constructor.
    + eapply Forall_impl; [| exact F]. intros e (O & _). exact O.
Qed.

Lemma one_socket_per_run_witness :
  In (ENewSocket Pair (inl 7%nat)) (node_trace (scripted peer_listening) "1" tcp_url)
  /\ count is_new_socket (node_trace (scripted peer_listening) "1" tcp_url) = 1%nat
  /\ Forall (on_socket 7%nat) (node_trace (scripted peer_listening) "1" tcp_url).
Proof.
  split; [vm_compute; now left |].
  apply (@one_socket_per_run (scripted peer_listening) "1" tcp_url 7%nat).
  vm_compute; now left.
Defined.

(** X4. Nothing after the factory touches the configuration: at the end of
    any run the socket it created is still a pair socket with the IPC and
    TCP transports and a receive deadline of 10 seconds. *)
Theorem configuration_is_kept (w : env) (n url : string) (s : Socket) :
  In (ENewSocket Pair (inl s)) (node_trace w n url) ->
  endpoint_of s (node_trace w n url)
  = Some (mkEndpoint Pair [Ipc; Tcp] (Some (10 * time_Second))).
Proof.
  intro I. destruct (run_of_socket w n url s I) as (r & rest & T & F).
  assert (K : forall ep, fold_left (configure s) rest ep = ep).
  { clear T. induction F as [| e rest (_ & _ & C) F IH]; intro ep; [reflexivity |].
    simpl. now rewrite C. }
  rewrite T. unfold endpoint_of. rewrite fold_left_app, K.
  cbn [fold_left configure]. rewrite !(Nat.eqb_refl s).
  cbn [protocol transports recv_deadline app andb]. now rewrite String.eqb_refl.
Qed.

Lemma configuration_is_kept_witness :
  In (ENewSocket Pair (inl 7%nat)) (node_trace (scripted (peer_silent_at 2)) "0" tcp_url)
  /\ endpoint_of 7%nat (node_trace (scripted (peer_silent_at 2)) "0" tcp_url)
     = Some (mkEndpoint Pair [Ipc; Tcp] (Some (10 * time_Second))).
Proof.
  split; [vm_compute; now left |].
  apply (@configuration_is_kept (scripted (peer_silent_at 2)) "0" tcp_url 7%nat).
  vm_compute; now left.
Defined.

(** ** Replies, sleeps and the end of a run *)

Lemma slept_app (a b : list event) : slept (a ++ b) = slept a + slept b.
Proof.
  induction a as [| x a IH]; [reflexivity |].
  destruct x; simpl; rewrite ?IH; lia.
Qed.

Lemma exchange_replies (n : string) (s : Socket) (k : nat) (i : Z)
      (tl : list event) (o : outcome unit) :
  exchange n s k i tl o ->
  slept tl = Z.of_nat (count is_reply tl) * time_Second
  /\ match o with
     | Returned _ => count is_reply tl = k
     | Exited _ => (count is_reply tl < k)%nat
     | Panicked _ => False
     end.
Proof.
  intro H. induction H as [i | k i tl code R | k i tl tl' o R X IH].
  - split; reflexivity.
  - inversion R; subst; split; cbn; lia.
  - destruct IH as [Sl Co]. rewrite slept_app, count_app, Sl.
    inversion R; subst. cbn [slept count filter is_reply List.length].
    split; [unfold time_Second; lia |].
    destruct o; cbn; cbn in Co; lia.
Qed.

(** The parts of a run outside the loop neither sleep nor receive. *)
Lemma creating_quiet (n : string) (tl : list event) (o : outcome Socket) :
  creating n tl o -> slept tl = 0 /\ count is_reply tl = 0%nat.
Proof. intro H; now destruct H. Qed.

Lemma connecting_quiet (n : string) (s : Socket) (url : string)
      (tl : list event) (o : outcome unit) :
  connecting n s url tl o -> slept tl = 0 /\ count is_reply tl = 0%nat.
Proof. intro H; now destruct H. Qed.

(** X5. The process sleeps one second for each reply it receives and not
    otherwise, so at most three seconds in a run. *)
Theorem one_second_per_reply (w : env) (n url : string) :
  slept (node_trace w n url)
  = Z.of_nat (count is_reply (node_trace w n url)) * time_Second
  /\ slept (node_trace w n url) <= 3 * time_Second.
Proof.
  run_cases w n url.
  - destruct (creating_quiet Cr) as [-> ->]. split; [reflexivity | discriminate].
  - destruct (creating_quiet Cr) as [S1 R1]. destruct (connecting_quiet Co) as [S2 R2].
    rewrite slept_app, count_app, S1, S2, R1, R2. split; [reflexivity | discriminate].
  - destruct (creating_quiet Cr) as [S1 R1]. destruct (connecting_quiet Co) as [S2 R2].
    destruct (exchange_replies Ex) as [S3 R3]. cbn in R3.
    rewrite !slept_app, !count_app, S1, S2, R1, R2, S3. cbn [Nat.add Z.add].
    split; [reflexivity | unfold time_Second; lia].
  - destruct (creating_quiet Cr) as [S1 R1]. destruct (connecting_quiet Co) as [S2 R2].
    destruct (exchange_replies Ex) as [S3 R3]. cbn in R3.
    rewrite !slept_app, !count_app, S1, S2, R1, R2, S3, R3. cbn. split; reflexivity.
Qed.

(** X6. The process completes exactly when it has received three replies:
    a run that returns has received three, a run that exits has received
    fewer, and no run ends in a panic. *)
Theorem returns_after_three_replies (w : env) (n url : string) :
  match node_outcome w n url with
  | Returned _ => count is_reply (node_trace w n url) = 3%nat
  | Exited code => code = 1 /\ (count is_reply (node_trace w n url) < 3)%nat
  | Panicked _ => False
  end.
Proof.
  run_cases w n url.
  - destruct (creating_quiet Cr) as [_ ->].
    split; [eapply creating_exit_code; eauto | lia].
  - destruct (creating_quiet Cr) as [_ R1]. destruct (connecting_quiet Co) as [_ R2].
    rewrite count_app, R1, R2.
    split; [eapply connecting_exit_code; eauto | lia].
  - destruct (creating_quiet Cr) as [_ R1]. destruct (connecting_quiet Co) as [_ R2].
    destruct (exchange_replies Ex) as [_ R3]. cbn in R3.
    rewrite !count_app, R1, R2.
    split; [eapply exchange_exit_code; eauto | exact R3].
  - destruct (creating_quiet Cr) as [_ R1]. destruct (connecting_quiet Co) as [_ R2].
    destruct (exchange_replies Ex) as [_ R3]. cbn in R3.
    rewrite !count_app, R1, R2, R3. reflexivity.
Qed.

(** ** Every send is announced *)

Lemma announced_extends (n : string) (a b : list event)
      (pre : list event) (e : event) (post : list event) :
  announced n pre e post -> announced n (a ++ pre) e (post ++ b).
Proof.
  destruct e; cbn; auto.
  intros (pre' & m & -> & ->). exists (a ++ pre')%list, m.
  now rewrite app_assoc.
Qed.

Lemma round_announced (n : string) (s : Socket) (i : Z) (tl : list event)
      (o : outcome unit) :
  round n s i tl o -> everywhere (announced n) tl.
Proof.
  intro R. inversion R; subst; peel; cbn; auto;
    exists [], (message n i); split; reflexivity.
Qed.

Lemma exchange_announced (n : string) (s : Socket) (k : nat) (i : Z)
      (tl : list event) (o : outcome unit) :
  exchange n s k i tl o -> everywhere (announced n) tl.
Proof.
  intro H. induction H as [i | k i tl code R | k i tl tl' o R X IH].
  - apply everywhere_nil.
  - eapply round_announced; eauto.
  - apply everywhere_app.
    + eapply everywhere_impl; [| eapply round_announced; eauto].
      intros p x q P. apply (announced_extends n [] tl') in P. exact P.
    + eapply everywhere_impl; [| exact IH].
      intros p x q P. apply (announced_extends n tl []) in P.
      now rewrite app_nil_r in P.
Qed.

Lemma announced_everywhere (w : env) (n url : string) :
  everywhere (announced n) (node_trace w n url).
Proof.
  run_cases w n url.
  - inversion Cr; subst; peel; cbn; auto.
  - inversion Cr; subst; inversion Co; subst; cbn [app]; peel; cbn; auto.
  - apply everywhere_app; [inversion Cr; subst; peel; cbn; auto |].
    apply everywhere_app; [inversion Co; subst; peel; cbn; auto |].
    eapply everywhere_impl; [| eapply exchange_announced; eauto].
    intros p x q P. apply (announced_extends n tl' []) in P.
    apply (announced_extends n tl []) in P. now rewrite !app_nil_r in P.
  - apply everywhere_app; [inversion Cr; subst; peel; cbn; auto |].
    apply everywhere_app; [inversion Co; subst; peel; cbn; auto |].
    apply everywhere_app; [| peel; cbn; auto].
    eapply everywhere_impl; [| eapply exchange_announced; eauto].
    intros p x q P. apply (announced_extends n tl' [ELog (line_done n); EClose s r]) in P.
    apply (announced_extends n tl []) in P. now rewrite !app_nil_r in P.
Qed.

(** X7. Every payload is logged before it is sent: the call just before
    any [Send], failed or not, is the log line [Node <role> sends <m>]
    for the very string [m] whose bytes are sent. *)
Theorem send_is_announced (w : env) (n url : string)
        (pre : list event) (s : Socket) (b : bytes) (r : option error)
        (post : list event) :
  node_trace w n url = (pre ++ ESend s b r :: post)%list ->
  exists pre' m,
    pre = (pre' ++ [ELog ("Node " ++ n ++ " sends " ++ m ++ nl)])%list
    /\ b = bytes_of_string m.
Proof.
  intro T. exact (announced_everywhere w n url pre (ESend s b r) post T).
Qed.

Lemma send_is_announced_witness :
  let tr := node_trace (scripted (link_down_at 1)) "0" tcp_url in
  tr = (firstn 11 tr
        ++ ESend 7%nat (bytes_of_string "message 1 from node 0.") (Some ErrClosed)
        :: skipn 12 tr)%list
  /\ exists pre' m,
       firstn 11 tr = (pre' ++ [ELog ("Node " ++ "0" ++ " sends " ++ m ++ nl)])%list
       /\ bytes_of_string "message 1 from node 0." = bytes_of_string m.
Proof.
  cbv zeta. split; [vm_compute; reflexivity |].
  apply (@send_is_announced (scripted (link_down_at 1)) "0" tcp_url
           (firstn 11 (node_trace (scripted (link_down_at 1)) "0" tcp_url))
           7%nat (bytes_of_string "message 1 from node 0.") (Some ErrClosed)
           (skipn 12 (node_trace (scripted (link_down_at 1)) "0" tcp_url))).
  vm_compute; reflexivity.
Defined.

(** ** How the process ends *)

Lemma node_run_outcome (n url : string) (tl : list event) (o : outcome unit) :
  node_run n url tl o -> o = Returned tt \/ o = Exited 1.
Proof.
  intro H. destruct H as [tl code Cr | s tl tl' code Cr Co | s tl tl' tl'' code Cr Co Ex
                          | s tl tl' tl'' r Cr Co Ex]; [right | right | right | now left].
  - now rewrite (creating_exit_code Cr).
  - now rewrite (connecting_exit_code Co).
  - now rewrite (exchange_exit_code Ex).
Qed.

(** X8. Whatever the arguments and the environment, the process ends in
    one of three ways: [main] returns (status 0), [log.Fatalf] exits with
    status 1, or, only when [os.Args] is empty, indexing it panics before
    anything has been done. *)
Theorem process_ends (w : env) (os_Args : list string) :
  match os_Args with
  | [] => run w os_Args = (start, Panicked "runtime error: index out of range")
  | _ :: _ => snd (run w os_Args) = Returned tt \/ snd (run w os_Args) = Exited 1
  end.
Proof.
  destruct os_Args as [| name [| role [| url more]]].
  - reflexivity.
  - rewrite run_usage with (name := name); simpl; auto.
  - rewrite run_usage with (name := name); simpl; auto.
  - rewrite run_node. apply node_run_outcome with (n := role) (url := url) (tl := node_trace w role url).
    apply node_run_holds.
Qed.

(** ** Telling the payloads apart *)

Lemma list_ascii_of_append (a b : string) :
  list_ascii_of_string (a ++ b)
  = (list_ascii_of_string a ++ list_ascii_of_string b)%list.
Proof. induction a as [| c a IH]; simpl; now rewrite ?IH. Qed.

Lemma append_inv_tail (a b t : string) : a ++ t = b ++ t -> a = b.
Proof.
  intro E. apply (f_equal list_ascii_of_string) in E.
  rewrite !list_ascii_of_append in E. apply app_inv_tail in E.
  rewrite <- (string_of_list_ascii_of_string a), <- (string_of_list_ascii_of_string b).
  now rewrite E.
Qed.

Lemma bytes_of_string_inj (a b : string) :
  bytes_of_string a = bytes_of_string b -> a = b.
Proof.
  unfold bytes_of_string. intro E.
  rewrite <- (string_of_list_byte_of_string a), <- (string_of_list_byte_of_string b).
  now rewrite E.
Qed.

Lemma itoa_inj (i j : Z) : itoa i = itoa j -> i = j.
Proof.
  assert (N : forall z, Z.to_int z <> Decimal.Pos Decimal.Nil
                        /\ Z.to_int z <> Decimal.Neg Decimal.Nil).
  { intro z. split; intro E; pose proof (DecimalZ.of_to z) as O;
      rewrite E in O; cbn in O; subst z; discriminate E. }
  unfold itoa. intro E.
  apply DecimalZ.to_int_inj.
  assert (S : Some (Z.to_int i) = Some (Z.to_int j)).
  { rewrite <- (@NilZero.isi (Z.to_int i) (proj1 (N i)) (proj2 (N i))).
    rewrite <- (@NilZero.isi (Z.to_int j) (proj1 (N j)) (proj2 (N j))).
    now rewrite E. }
  now inversion S.
Qed.

(** X9. The payload tells the pass: for one role, the payloads of two
    passes are the same bytes only if the counters are the same. *)
Theorem payload_tells_the_pass (n : string) (i j : Z) :
  bytes_of_string (message n i) = bytes_of_string (message n j) -> i = j.
Proof.
  intro E. apply bytes_of_string_inj in E. unfold message in E.
  inversion E as [E']. apply append_inv_tail in E'. now apply itoa_inj.
Qed.

Lemma payload_tells_the_pass_witness :
  bytes_of_string (message "0" 2) = bytes_of_string (message "0" 2) /\ 2 = 2.
Proof.
  split; [reflexivity |].
  apply (@payload_tells_the_pass "0" 2 2). reflexivity.
Defined.

(** ** Two nodes *)


(** ** No run is long *)


